(** * nostream distributed storage: operator scripts, partitioned store and
      message dispatch, embedded and verified.

    The development follows the repository:
    - [scripts/add-storage-node.sh], [scripts/remove-storage-node.sh] and
      [scripts/archive-events.sh] are shell programs; they are embedded as
      functions over an explicit [world] (coordinator database, storage
      nodes, Yggdrasil configuration files) that also keep a log of the
      external commands they run;
    - the migration that partitions [events] gives the tables, the unique
      indexes and the [process_event_tags] trigger;
    - [messageHandlerFactory] is the relay's dispatch on the message type. *)

From Stdlib Require Import ZArith Ascii String List Bool.
From stdpp Require Import gmap strings list fin_maps.
Import ListNotations.

Local Open Scope string_scope.
Local Open Scope list_scope.
Local Open Scope Z_scope.

(* ===================================================================== *)
(** * Shell primitives                                                     *)
(* ===================================================================== *)

(** Bash arithmetic [$(( ... ))] is done on signed 64-bit integers and wraps
    around silently. *)
Definition wrap64 (z : Z) : Z := (z + 2 ^ 63) mod 2 ^ 64 - 2 ^ 63.

Definition LF : ascii := ascii_of_nat 10.

(** Characters of the bracket expression [[a-zA-Z0-9_]] (C locale). *)
Definition is_name_char (c : ascii) : bool :=
  let n := nat_of_ascii c in
  ((97 <=? n) && (n <=? 122))%nat    (* a-z *)
  || ((65 <=? n) && (n <=? 90))%nat  (* A-Z *)
  || ((48 <=? n) && (n <=? 57))%nat  (* 0-9 *)
  || (n =? 95)%nat.                   (* _   *)

Fixpoint all_chars (p : ascii -> bool) (s : string) : bool :=
  match s with
  | EmptyString => true
  | String c s' => p c && all_chars p s'
  end.

(** [^[a-zA-Z0-9_]+$] against one line. *)
Definition line_matches (l : string) : bool :=
  match l with
  | EmptyString => false
  | _ => all_chars is_name_char l
  end.

(** Pieces of a text between line feeds: ["a\nb"] gives [a; b], a text that
    ends in a line feed gives a last empty piece. *)
Fixpoint split_lf (s : string) : list string :=
  match s with
  | EmptyString => [EmptyString]
  | String c s' =>
      if Ascii.eqb c LF then EmptyString :: split_lf s'
      else match split_lf s' with
           | l :: ls => String c l :: ls
           | [] => [String c EmptyString]
           end
  end.

(** The lines grep reads from a text: the pieces between line feeds, without
    the empty piece that follows a final line feed. *)
Definition grep_lines (out : string) : list string :=
  let ps := split_lf out in
  match last ps with
  | Some EmptyString => removelast ps
  | _ => ps
  end.

(** Bash's builtin [echo] takes a first argument made of [-] and the letters
    [n], [e], [E] as options instead of printing it. *)
Definition is_echo_flag (c : ascii) : bool :=
  Ascii.eqb c "n" || Ascii.eqb c "e" || Ascii.eqb c "E".

Definition is_echo_option (s : string) : bool :=
  match s with
  | String "-" (String c r) => all_chars is_echo_flag (String c r)
  | _ => false
  end.

Fixpoint has_char (p : ascii -> bool) (s : string) : bool :=
  match s with
  | EmptyString => false
  | String c s' => p c || has_char p s'
  end.

(** What [echo "$x"] writes. *)
Definition echo (x : string) : string :=
  if is_echo_option x then
    if has_char (fun c => Ascii.eqb c "n") x then EmptyString
    else String LF EmptyString
  else (x ++ String LF EmptyString)%string.

(** [grep -qE '^[a-zA-Z0-9_]+$']: status 0 as soon as one input line matches. *)
Definition grep_q_name (input : string) : bool :=
  existsb line_matches (grep_lines input).

(** [echo "$NODE_NAME" | grep -qE '^[a-zA-Z0-9_]+$'], the test the three
    scripts run on the node name. *)
Definition node_name_ok (NODE_NAME : string) : bool :=
  grep_q_name (echo NODE_NAME).

(** The language of the pattern itself, on the whole name. *)
Definition matches_name_pattern (s : string) : bool := line_matches s.

Definition to_lower_ascii (c : ascii) : ascii :=
  let n := nat_of_ascii c in
  if ((65 <=? n) && (n <=? 90))%nat then ascii_of_nat (n + 32) else c.

(** [${x,,}] *)
Fixpoint to_lower (s : string) : string :=
  match s with
  | EmptyString => EmptyString
  | String c s' => String (to_lower_ascii c) (to_lower s')
  end.

(* ===================================================================== *)
(** * messageHandlerFactory                                                *)
(* ===================================================================== *)

Module MessageType.
(** The members of the [MessageType] enum that the factory switches on.
    The enum is declared in [@types/messages]; its members are strings. *)
Record values := {
  EVENT : string;
  REQ : string;
  AUTH : string;
  CLOSE : string
}.
End MessageType.

Section MessageHandlerFactory.
(** Collaborators of the factory, declared outside this file: the
    repositories and the adapter it receives, and the strategy, settings and
    rate-limiter factories it hands to the handlers. *)
Variables IEventRepository IUserRepository IWebSocketAdapter : Type.
Variables EventStrategyFactory SignedAuthEventStrategyFactory : Type.
Variables SettingsFactory RateLimiterFactory : Type.
Variable eventStrategyFactory : IEventRepository -> EventStrategyFactory.
Variable signedAuthEventStrategyFactory : unit -> SignedAuthEventStrategyFactory.
Variable createSettings : SettingsFactory.
Variable slidingWindowRateLimiterFactory : RateLimiterFactory.
Variable MT : MessageType.values.

(** The four handler classes, each with the arguments of its constructor. *)
Inductive handler : Type :=
| EventMessageHandler (adapter : IWebSocketAdapter)
    (strategyFactory : EventStrategyFactory) (userRepository : IUserRepository)
    (settings : SettingsFactory) (rateLimiter : RateLimiterFactory)
| SubscribeMessageHandler (adapter : IWebSocketAdapter)
    (eventRepository : IEventRepository) (settings : SettingsFactory)
| AuthEventMessageHandler (adapter : IWebSocketAdapter)
    (strategyFactory : SignedAuthEventStrategyFactory)
    (userRepository : IUserRepository)
    (settings : SettingsFactory) (rateLimiter : RateLimiterFactory)
| UnsubscribeMessageHandler (adapter : IWebSocketAdapter).

(** A thrown [Error] with its message. *)
Inductive js_error : Type := Error (message : string).

(** [switch (message[0])]: the cases are tried in order with strict
    equality; [default] throws.  [String(x).substring(0, 64)] keeps the
    first 64 characters of the type. *)
Definition messageHandlerFactory
    (eventRepository : IEventRepository) (userRepository : IUserRepository)
    (message0 : string) (adapter : IWebSocketAdapter) : handler + js_error :=
  if String.eqb message0 (MessageType.EVENT MT) then
    inl (EventMessageHandler adapter (eventStrategyFactory eventRepository)
           userRepository createSettings slidingWindowRateLimiterFactory)
  else if String.eqb message0 (MessageType.REQ MT) then
    inl (SubscribeMessageHandler adapter eventRepository createSettings)
  else if String.eqb message0 (MessageType.AUTH MT) then
    inl (AuthEventMessageHandler adapter (signedAuthEventStrategyFactory tt)
           userRepository createSettings slidingWindowRateLimiterFactory)
  else if String.eqb message0 (MessageType.CLOSE MT) then
    inl (UnsubscribeMessageHandler adapter)
  else
    inr (Error ("Unknown message type: " ++ String.substring 0 64 message0)%string).
End MessageHandlerFactory.

Arguments messageHandlerFactory {_ _ _ _ _ _ _} _ _ _ _ _ _ _ _ _.

(* ===================================================================== *)
(** * The coordinator's tables                                            *)
(* ===================================================================== *)

(** A row of [events] (and of [events_data] on a storage node): the thirteen
    columns of the migration.  [event_tags] is the jsonb array of tags, each
    tag an array of strings (a NULL column and an empty array both give no
    element to [jsonb_array_elements]). *)
Record event := {
  id : string;
  event_id : string;
  event_pubkey : string;
  event_kind : Z;
  event_created_at : Z;
  event_content : string;
  event_tags : list (list string);
  event_signature : string;
  first_seen : option Z;
  deleted_at : option Z;
  remote_address : option string;
  expires_at : option Z;
  event_deduplication : option string
}.

(** A row of the flat, local [event_tags] table. *)
Record tag_row := {
  tag_event_id : string;
  tag_name : string;
  tag_value : string
}.

(** A partition bound: [FOR VALUES FROM (..) TO (..)]. *)
Inductive bound := MINVALUE | Ts (t : Z) | MAXVALUE.

(** Children of the partitioned table [events]. *)
Inductive relation :=
| events_hot_rel
| events_archive (node : string).

Record partition := {
  relname : relation;
  part_from : bound;   (* inclusive *)
  part_to : bound      (* exclusive *)
}.

(** The coordinator database: the hot partition, the tag table and the catalog
    entries the scripts create (foreign servers with their host, user mappings
    with their password, foreign tables, attached partitions). *)
Record coordinator := {
  hot : list event;
  tags : list tag_row;
  servers : gmap string string;
  user_mappings : gmap string string;
  foreign_tables : gset string;
  partitions : list partition
}.

Definition with_hot (h : list event) (d : coordinator) : coordinator :=
  {| hot := h; tags := tags d; servers := servers d;
     user_mappings := user_mappings d; foreign_tables := foreign_tables d;
     partitions := partitions d |}.

Definition with_tags (t : list tag_row) (d : coordinator) : coordinator :=
  {| hot := hot d; tags := t; servers := servers d;
     user_mappings := user_mappings d; foreign_tables := foreign_tables d;
     partitions := partitions d |}.

(** ** The [process_event_tags] trigger *)

Inductive tg_op := TG_INSERT | TG_UPDATE | TG_DELETE.

Definition DQ : ascii := ascii_of_nat 34.
Definition BACKSLASH : ascii := ascii_of_nat 92.

(** [(j)::text] of a jsonb string: the string between double quotes, double
    quotes and backslashes escaped (control characters are not modelled). *)
Fixpoint json_escape (s : string) : string :=
  match s with
  | EmptyString => EmptyString
  | String c s' =>
      if Ascii.eqb c DQ || Ascii.eqb c BACKSLASH
      then String BACKSLASH (String c (json_escape s'))
      else String c (json_escape s')
  end.

Definition jsonb_text (s : string) : string :=
  String DQ (json_escape s ++ String DQ EmptyString)%string.

Fixpoint ltrim (c : ascii) (s : string) : string :=
  match s with
  | String c' s' => if Ascii.eqb c' c then ltrim c s' else s
  | EmptyString => EmptyString
  end.

Fixpoint string_rev_app (s acc : string) : string :=
  match s with
  | EmptyString => acc
  | String c s' => string_rev_app s' (String c acc)
  end.

Definition string_rev (s : string) : string := string_rev_app s EmptyString.

(** [trim(s, c)]: strip [c] from both ends. *)
Definition trim (c : ascii) (s : string) : string :=
  string_rev (ltrim c (string_rev (ltrim c s))).

(** [trim((tag_element->i)::text, DQ)], with DQ the double quote; NULL when
    the element is missing. *)
Definition tag_field (tag_element : list string) (i : nat) : option string :=
  match nth_error tag_element i with
  | Some s => Some (trim DQ (jsonb_text s))
  | None => None
  end.

(** The body of the FOR loop for one tag. *)
Definition tag_rows_of (new_event_id : string) (tag_element : list string)
  : list tag_row :=
  match tag_field tag_element 0, tag_field tag_element 1 with
  | Some name, Some value =>
      if (String.length name =? 1)%nat && negb (String.eqb value EmptyString)
      then [ {| tag_event_id := new_event_id; tag_name := name;
                tag_value := value |} ]
      else []
  | _, _ => []
  end.

(** [process_event_tags()], fired AFTER INSERT OR UPDATE OR DELETE for each
    row of a local partition.  It first deletes the tag rows of [OLD.event_id]
    (no row when [OLD] is unassigned, as on INSERT), then on INSERT and UPDATE
    inserts the tag rows derived from [NEW.event_tags]. *)
Definition process_event_tags (op : tg_op) (OLD NEW : option event)
    (tbl : list tag_row) : list tag_row :=
  let tbl1 :=
    match OLD with
    | Some o => List.filter (fun r => negb (String.eqb (tag_event_id r) (event_id o))) tbl
    | None => tbl
    end in
  match op, NEW with
  | (TG_INSERT | TG_UPDATE), Some n =>
      tbl1 ++ concat (map (tag_rows_of (event_id n)) (event_tags n))
  | _, _ => tbl1
  end.

(** ** Statements on the hot partition and on a storage node's table *)

(** [WHERE event_created_at >= lo AND event_created_at < hi] *)
Definition in_window (lo hi : Z) (e : event) : bool :=
  (lo <=? event_created_at e) && (event_created_at e <? hi).

(** [WHERE event_created_at < cutoff] *)
Definition below (cutoff : Z) (e : event) : bool :=
  event_created_at e <? cutoff.

(** [SELECT COUNT( * ) FROM events_hot WHERE p] *)
Definition count_where (p : event -> bool) (t : list event) : Z :=
  Z.of_nat (length (List.filter p t)).

(** [SELECT MIN(event_created_at) FROM events_hot WHERE p] (NULL on no row). *)
Definition min_created_at (p : event -> bool) (t : list event) : option Z :=
  match map event_created_at (List.filter p t) with
  | [] => None
  | x :: xs => Some (fold_left Z.min xs x)
  end.

Definition max_created_at (p : event -> bool) (t : list event) : option Z :=
  match map event_created_at (List.filter p t) with
  | [] => None
  | x :: xs => Some (fold_left Z.max xs x)
  end.

(** [ORDER BY event_created_at]: rows with equal keys keep their order. *)
Fixpoint insert_by_created_at (e : event) (l : list event) : list event :=
  match l with
  | [] => [e]
  | x :: r =>
      if event_created_at e <=? event_created_at x then e :: l
      else x :: insert_by_created_at e r
  end.

Definition order_by_created_at (l : list event) : list event :=
  fold_right insert_by_created_at [] l.

(** The [batch] CTE of the copy statement:
    [SELECT .. FROM events_hot WHERE window ORDER BY event_created_at
     LIMIT limit OFFSET offset].  A negative LIMIT or OFFSET is an error. *)
Definition select_batch (lo hi limit offset : Z) (t : list event)
  : option (list event) :=
  if (limit <? 0) || (offset <? 0) then None
  else Some (firstn (Z.to_nat limit)
               (skipn (Z.to_nat offset)
                  (order_by_created_at (List.filter (in_window lo hi) t)))).

Definition has_event_id (eid : string) (t : list event) : bool :=
  existsb (fun r => String.eqb (event_id r) eid) t.

(** [INSERT INTO events_data .. ON CONFLICT (event_id) DO NOTHING] for one
    row: [events_data] has the unique index [events_data_event_id_uidx] and no
    other unique constraint. *)
Definition insert_events_data (r : event) (t : list event) : list event :=
  if has_event_id (event_id r) t then t else t ++ [r].

Definition insert_all_events_data (rows t : list event) : list event :=
  fold_left (fun acc r => insert_events_data r acc) rows t.

(** The kinds under the partial unique index [replaceable_events_idx]. *)
Definition is_replaceable_kind (k : Z) : bool :=
  (k =? 0) || (k =? 3) || (k =? 41)
  || ((10000 <=? k) && (k <? 20000))
  || ((30000 <=? k) && (k <? 40000)).

(** In a unique index two NULLs are distinct. *)
Definition same_dedup (a b : option string) : bool :=
  match a, b with
  | Some x, Some y => String.eqb x y
  | _, _ => false
  end.

(** Does [r] collide with the row [x] on one of the unique indexes of
    [events_hot]: the primary key [(id, event_created_at)],
    [events_hot_event_id_idx], [replaceable_events_idx]. *)
Definition hot_conflict (r x : event) : bool :=
  (String.eqb (id r) (id x) && (event_created_at r =? event_created_at x))
  || String.eqb (event_id r) (event_id x)
  || (is_replaceable_kind (event_kind r) && is_replaceable_kind (event_kind x)
      && String.eqb (event_pubkey r) (event_pubkey x)
      && (event_kind r =? event_kind x)
      && same_dedup (event_deduplication r) (event_deduplication x)).

(** [INSERT INTO events_hot .. ON CONFLICT DO NOTHING] for one row; the
    trigger fires for the row when it is inserted. *)
Definition insert_events_hot (r : event) (d : coordinator) : coordinator :=
  if existsb (hot_conflict r) (hot d) then d
  else with_tags (process_event_tags TG_INSERT None (Some r) (tags d))
         (with_hot (hot d ++ [r]) d).

(** [DELETE FROM events_hot WHERE window RETURNING 1], counted: the rows of
    the window leave the partition and the trigger fires for each of them. *)
Definition delete_window (lo hi : Z) (d : coordinator) : Z * coordinator :=
  let removed := List.filter (in_window lo hi) (hot d) in
  let kept := List.filter (fun e => negb (in_window lo hi e)) (hot d) in
  let tags' :=
    fold_left (fun t o => process_event_tags TG_DELETE (Some o) None t)
      removed (tags d) in
  (Z.of_nat (length removed), with_tags tags' (with_hot kept d)).

(** ** Partition bounds and the catalog *)

(** Order on bounds: MINVALUE below every timestamp, MAXVALUE above. *)
Definition bound_lt (a b : bound) : bool :=
  match a, b with
  | MINVALUE, MINVALUE => false
  | MINVALUE, _ => true
  | Ts x, Ts y => x <? y
  | Ts _, MAXVALUE => true
  | Ts _, MINVALUE => false
  | MAXVALUE, _ => false
  end.

(** [[f1, t1)] and [[f2, t2)] share a key. *)
Definition ranges_overlap (f1 t1 f2 t2 : bound) : bool :=
  bound_lt f1 t2 && bound_lt f2 t1.

Definition relation_eqb (a b : relation) : bool :=
  match a, b with
  | events_hot_rel, events_hot_rel => true
  | events_archive x, events_archive y => String.eqb x y
  | _, _ => false
  end.

Definition is_partition (r : relation) (ps : list partition) : bool :=
  existsb (fun p => relation_eqb (relname p) r) ps.

Inductive sql_error :=
| RangeOverlap          (* partition would overlap an existing partition *)
| EmptyRange            (* empty range bound specified *)
| AlreadyPartition      (* the table is already a partition *)
| NotAPartition         (* DETACH of a relation that is not attached *)
| UndefinedTable
| NoPartitionForRow     (* no partition of relation found for row *)
| NegativeLimit
| RemoteUnreachable.

Definition with_partitions (ps : list partition) (d : coordinator) : coordinator :=
  {| hot := hot d; tags := tags d; servers := servers d;
     user_mappings := user_mappings d; foreign_tables := foreign_tables d;
     partitions := ps |}.

(** Modelled from the spec: the relational engine's [attachPartition]
    (ALTER TABLE events ATTACH PARTITION .. FOR VALUES FROM .. TO ..), which
    is not part of the repository: it fails with RangeOverlap when the range
    collides with an existing partition, and otherwise adds the routing entry.
    A gap between ranges is not the engine's concern. *)
Definition attach_partition (node : string) (from to : bound) (d : coordinator)
  : sql_error + coordinator :=
  if negb (bool_decide (node ∈ foreign_tables d)) then inl UndefinedTable
  else if is_partition (events_archive node) (partitions d) then inl AlreadyPartition
  else if negb (bound_lt from to) then inl EmptyRange
  else if existsb (fun p => ranges_overlap from to (part_from p) (part_to p))
            (partitions d)
  then inl RangeOverlap
  else inr (with_partitions
              (partitions d ++
                 [ {| relname := events_archive node; part_from := from;
                      part_to := to |} ]) d).

(** Modelled from the spec: the relational engine's [detachPartition]
    (ALTER TABLE events DETACH PARTITION .. CONCURRENTLY): removes the routing
    entry and leaves the rows where they are. *)
Definition detach_partition (node : string) (d : coordinator)
  : sql_error + coordinator :=
  if is_partition (events_archive node) (partitions d) then
    inr (with_partitions
           (List.filter (fun p => negb (relation_eqb (relname p) (events_archive node)))
              (partitions d)) d)
  else inl NotAPartition.

(** [CREATE SERVER IF NOT EXISTS storage_<node> .. OPTIONS (host ..)] *)
Definition create_server (node host : string) (d : coordinator) : coordinator :=
  match servers d !! node with
  | Some _ => d
  | None =>
      {| hot := hot d; tags := tags d; servers := <[node := host]> (servers d);
         user_mappings := user_mappings d; foreign_tables := foreign_tables d;
         partitions := partitions d |}
  end.

(** [CREATE USER MAPPING IF NOT EXISTS FOR <user> SERVER storage_<node>] *)
Definition create_user_mapping (node password : string) (d : coordinator)
  : coordinator :=
  match user_mappings d !! node with
  | Some _ => d
  | None =>
      {| hot := hot d; tags := tags d; servers := servers d;
         user_mappings := <[node := password]> (user_mappings d);
         foreign_tables := foreign_tables d; partitions := partitions d |}
  end.

(** [CREATE FOREIGN TABLE IF NOT EXISTS events_archive_<node>] *)
Definition create_foreign_table (node : string) (d : coordinator) : coordinator :=
  {| hot := hot d; tags := tags d; servers := servers d;
     user_mappings := user_mappings d;
     foreign_tables := {[ node ]} ∪ foreign_tables d;
     partitions := partitions d |}.

(** [DROP FOREIGN TABLE IF EXISTS events_archive_<node>]: a table that is
    still a partition leaves the parent with it. *)
Definition drop_foreign_table (node : string) (d : coordinator) : coordinator :=
  {| hot := hot d; tags := tags d; servers := servers d;
     user_mappings := user_mappings d;
     foreign_tables := foreign_tables d ∖ {[ node ]};
     partitions :=
       List.filter (fun p => negb (relation_eqb (relname p) (events_archive node)))
         (partitions d) |}.

(** [DROP USER MAPPING IF EXISTS FOR <user> SERVER storage_<node>] *)
Definition drop_user_mapping (node : string) (d : coordinator) : coordinator :=
  {| hot := hot d; tags := tags d; servers := servers d;
     user_mappings := delete node (user_mappings d);
     foreign_tables := foreign_tables d; partitions := partitions d |}.

(** [DROP SERVER IF EXISTS storage_<node>] *)
Definition drop_server (node : string) (d : coordinator) : coordinator :=
  {| hot := hot d; tags := tags d; servers := delete node (servers d);
     user_mappings := user_mappings d; foreign_tables := foreign_tables d;
     partitions := partitions d |}.

(* ===================================================================== *)
(** * The world the scripts run in                                        *)
(* ===================================================================== *)

(** The statements and commands the scripts issue, as they are logged. *)
Inductive statement :=
| CreateServer (node host : string)
| CreateUserMapping (node : string)
| CreateForeignTable (node : string)
| AttachPartition (node : string) (from to : bound)
| DetachPartition (node : string)
| DropForeignTable (node : string)
| DropUserMapping (node : string)
| DropServer (node : string)
| CountWindow (lo hi : Z)
| CopyWindow (node : string) (lo hi limit offset : Z)
| DeleteWindow (lo hi : Z).

Inductive command :=
| AllowKey (key : string)               (* .AllowedPublicKeys += [$k] *)
| RecordNode (name key : string)        (* .[$name] = $key in nodes.json *)
| DisallowKey (key : string)            (* .AllowedPublicKeys -= [$k] *)
| ForgetNode (name : string)            (* del(.[$name]) in nodes.json *)
| DockerRestart
| Sql (s : statement) (err : option sql_error).

(** [cfg]: the coordinator database; [storage]: [events_data] of each storage
    node, by Yggdrasil address; [ygg_config]: [AllowedPublicKeys] of
    yggdrasil.conf when the file exists; [ygg_nodes]: nodes.json when it
    exists; [log]: what has been run so far, oldest first. *)
Record world := {
  cfg : coordinator;
  storage : gmap string (list event);
  ygg_config : option (list string);
  ygg_nodes : option (gmap string string);
  jq_installed : bool;
  log : list command
}.

Definition with_cfg (d : coordinator) (w : world) : world :=
  {| cfg := d; storage := storage w; ygg_config := ygg_config w;
     ygg_nodes := ygg_nodes w; jq_installed := jq_installed w; log := log w |}.

Definition with_storage (s : gmap string (list event)) (w : world) : world :=
  {| cfg := cfg w; storage := s; ygg_config := ygg_config w;
     ygg_nodes := ygg_nodes w; jq_installed := jq_installed w; log := log w |}.

Definition with_ygg_config (c : option (list string)) (w : world) : world :=
  {| cfg := cfg w; storage := storage w; ygg_config := c;
     ygg_nodes := ygg_nodes w; jq_installed := jq_installed w; log := log w |}.

Definition with_ygg_nodes (n : option (gmap string string)) (w : world) : world :=
  {| cfg := cfg w; storage := storage w; ygg_config := ygg_config w;
     ygg_nodes := n; jq_installed := jq_installed w; log := log w |}.

Definition logged (c : command) (w : world) : world :=
  {| cfg := cfg w; storage := storage w; ygg_config := ygg_config w;
     ygg_nodes := ygg_nodes w; jq_installed := jq_installed w;
     log := log w ++ [c] |}.

(** Why a script stops before its last line, with the status it exits with. *)
Inductive halt :=
| MissingArgument      (* a required argument is empty or unset: exit 1 *)
| InvalidName          (* node-name must contain only letters, ...: exit 1 *)
| ConfigNotFound       (* Yggdrasil config not found: exit 1 *)
| JqRequired           (* jq is required: exit 1 *)
| PartitionNotFound    (* Partition events_archive_<node> not found: exit 1 *)
| NothingToDo          (* No events older than cutoff found: exit 0 *)
| DryRunOnly           (* Dry run, no changes made: exit 0 *)
| Declined.            (* Aborted at the prompt: exit 0 *)

Definition exit_code (h : halt) : Z :=
  match h with
  | MissingArgument | InvalidName | ConfigNotFound | JqRequired
  | PartitionNotFound => 1
  | NothingToDo | DryRunOnly | Declined => 0
  end.

(** A script: it runs over the world and either reaches its next command with
    a value or exits. *)
Definition sh (A : Type) : Type := world -> (A + halt) * world.

Definition ret {A} (a : A) : sh A := fun w => (inl a, w).

Definition bind {A B} (c : sh A) (k : A -> sh B) : sh B :=
  fun w =>
    match c w with
    | (inl a, w') => k a w'
    | (inr h, w') => (inr h, w')
    end.

Definition exit_with {A} (h : halt) : sh A := fun w => (inr h, w).
Definition get : sh world := fun w => (inl w, w).
Definition modify (f : world -> world) : sh unit := fun w => (inl tt, f w).
Definition run (c : command) : sh unit := modify (logged c).

Declare Scope sh_scope.
Delimit Scope sh_scope with sh.
Notation "x <- c ;; k" := (bind c (fun x => k))
  (at level 100, c at next level, right associativity) : sh_scope.
Notation "c ;; k" := (bind c (fun _ => k))
  (at level 100, right associativity) : sh_scope.

(** [psql] is called without ON_ERROR_STOP: a statement that fails is
    reported and the next one runs.  [sql s step] runs one statement of a
    here-document and logs how it went. *)
Definition sql (s : statement) (step : coordinator -> sql_error + coordinator)
  : sh unit :=
  fun w =>
    match step (cfg w) with
    | inr d => (inl tt, logged (Sql s None) (with_cfg d w))
    | inl e => (inl tt, logged (Sql s (Some e)) w)
    end.

Definition always (f : coordinator -> coordinator)
  : coordinator -> sql_error + coordinator := fun d => inr (f d).

(* ===================================================================== *)
(** * scripts/add-storage-node.sh                                          *)
(* ===================================================================== *)

Module AddStorageNode.

(** The positional arguments and [--pubkey] (empty when the flag is not
    given). *)
Record args := {
  YGG_ADDR : string;
  NODE_NAME : string;
  DB_PASSWORD : string;
  FROM_TS : bound;
  TO_TS : bound;
  STORAGE_PUBKEY : string
}.

(** 1. Yggdrasil whitelist update (if pubkey provided). *)
Definition whitelist_update (a : args) : sh unit :=
  (if String.eqb (STORAGE_PUBKEY a) EmptyString then ret tt
   else
     w <- get ;;
     match ygg_config w with
     | None => exit_with ConfigNotFound
     | Some keys =>
         if negb (jq_installed w) then exit_with JqRequired
         else if existsb (String.eqb (STORAGE_PUBKEY a)) keys then
           ret tt   (* Key already in whitelist: skipping *)
         else
           modify (with_ygg_config (Some (keys ++ [STORAGE_PUBKEY a]))) ;;
           run (AllowKey (STORAGE_PUBKEY a)) ;;
           (* jq on a missing nodes.json fails inside an && list, which
              set -e lets pass *)
           match ygg_nodes w with
           | Some nodes =>
               modify (with_ygg_nodes
                         (Some (<[NODE_NAME a := STORAGE_PUBKEY a]> nodes))) ;;
               run (RecordNode (NODE_NAME a) (STORAGE_PUBKEY a))
           | None => ret tt
           end ;;
           run DockerRestart
     end)%sh.

(** 2. Register node in PostgreSQL via FDW + attach as partition. *)
Definition register (a : args) : sh unit :=
  (sql (CreateServer (NODE_NAME a) (YGG_ADDR a))
     (always (create_server (NODE_NAME a) (YGG_ADDR a))) ;;
   sql (CreateUserMapping (NODE_NAME a))
     (always (create_user_mapping (NODE_NAME a) (DB_PASSWORD a))) ;;
   sql (CreateForeignTable (NODE_NAME a))
     (always (create_foreign_table (NODE_NAME a))) ;;
   sql (AttachPartition (NODE_NAME a) (FROM_TS a) (TO_TS a))
     (attach_partition (NODE_NAME a) (FROM_TS a) (TO_TS a)))%sh.

Definition main (a : args) : sh unit :=
  (if String.eqb (YGG_ADDR a) EmptyString || String.eqb (NODE_NAME a) EmptyString
      || String.eqb (DB_PASSWORD a) EmptyString
   then exit_with MissingArgument
   else if negb (node_name_ok (NODE_NAME a)) then exit_with InvalidName
   else whitelist_update a ;; register a)%sh.

End AddStorageNode.

(* ===================================================================== *)
(** * scripts/remove-storage-node.sh                                       *)
(* ===================================================================== *)

Module RemoveStorageNode.

(** [.AllowedPublicKeys -= [$k]]: every occurrence goes. *)
Definition without_key (k : string) (keys : list string) : list string :=
  List.filter (fun x => negb (String.eqb x k)) keys.

(** 1. Remove from Yggdrasil whitelist if key is recorded. *)
Definition whitelist_removal (NODE_NAME : string) : sh unit :=
  (w <- get ;;
   match ygg_nodes w, ygg_config w with
   | Some nodes, Some keys =>
       if negb (jq_installed w) then exit_with JqRequired
       else
         match nodes !! NODE_NAME with
         | Some STORED_KEY =>
             if String.eqb STORED_KEY EmptyString then ret tt
             else
               modify (with_ygg_config (Some (without_key STORED_KEY keys))) ;;
               run (DisallowKey STORED_KEY) ;;
               modify (with_ygg_nodes (Some (delete NODE_NAME nodes))) ;;
               run (ForgetNode NODE_NAME) ;;
               run DockerRestart
         | None => ret tt   (* No Yggdrasil key recorded: skipping *)
         end
   | _, _ => ret tt
   end)%sh.

(** 2. Detach partition and remove FDW objects. *)
Definition detach (NODE_NAME : string) : sh unit :=
  (sql (DetachPartition NODE_NAME) (detach_partition NODE_NAME) ;;
   sql (DropForeignTable NODE_NAME) (always (drop_foreign_table NODE_NAME)) ;;
   sql (DropUserMapping NODE_NAME) (always (drop_user_mapping NODE_NAME)) ;;
   sql (DropServer NODE_NAME) (always (drop_server NODE_NAME)))%sh.

Definition main (NODE_NAME : string) : sh unit :=
  (if String.eqb NODE_NAME EmptyString then exit_with MissingArgument
   else if negb (node_name_ok NODE_NAME) then exit_with InvalidName
   else whitelist_removal NODE_NAME ;; detach NODE_NAME)%sh.

End RemoveStorageNode.

(* ===================================================================== *)
(** * scripts/archive-events.sh                                            *)
(* ===================================================================== *)

Module ArchiveEvents.

(** The options after parsing.  [CUTOFF] is the timestamp given by
    [--cutoff] or computed from [--older-than]; [CONFIRM] is the line read
    at the prompt. *)
Record args := {
  NODE_NAME : string;
  CUTOFF : option Z;
  BATCH_SIZE : Z;
  BATCH_WINDOW : Z;
  DRY_RUN : bool;
  CONFIRM : string
}.

(** The variables of the archival loop; [copies] counts the copy statements
    sent so far. *)
Record job := {
  BATCH_START : Z;
  ARCHIVED : Z;
  DELETED : Z;
  copies : nat
}.

(** How the script ends: an early exit, the closing report, or still in the
    loop when the steps granted to the run are used up. *)
Inductive result :=
| Halted (h : halt)
| Done (archived deleted : Z)
| StillRunning.

(** The copy statement through the foreign table [events_archive_<node>]:
    the batch is inserted in [events_data] of the node behind the foreign
    server, in one transaction. [up] tells whether the node answers. *)
Definition copy_window (node : string) (lo hi limit offset : Z) (up : bool)
    (w : world) : sql_error + world :=
  if negb (bool_decide (node ∈ foreign_tables (cfg w))) then inl UndefinedTable
  else
    match select_batch lo hi limit offset (hot (cfg w)) with
    | None => inl NegativeLimit
    | Some rows =>
        match servers (cfg w) !! node with
        | None => inl UndefinedTable
        | Some host =>
            match storage w !! host with
            | Some t =>
                if up then
                  inr (with_storage
                         (<[host := insert_all_events_data rows t]> (storage w)) w)
                else inl RemoteUnreachable
            | None => inl RemoteUnreachable
            end
        end
    end.

Section Run.
(** [net n]: does the storage node answer the [n]-th copy statement. *)
Variable net : nat -> bool.
Variable a : args.
Variable cutoff : Z.

(** [while [ "$SUB_OFFSET" -lt "$WINDOW_COUNT" ]]: one copy statement per
    turn.  Its output [COPIED] (0 after [|| echo 0] when psql fails) is
    not read; the counters advance by [BATCH_SIZE] either way. *)
Fixpoint copy_sub_batches (fuel : nat) (lo hi WINDOW_COUNT SUB_OFFSET : Z)
    (j : job) (w : world) : bool * job * world :=
  if SUB_OFFSET <? WINDOW_COUNT then
    match fuel with
    | O => (false, j, w)
    | S fuel' =>
        let s := CopyWindow (NODE_NAME a) lo hi (BATCH_SIZE a) SUB_OFFSET in
        let w' :=
          match copy_window (NODE_NAME a) lo hi (BATCH_SIZE a) SUB_OFFSET
                  (net (copies j)) w with
          | inr w1 => logged (Sql s None) w1
          | inl e => logged (Sql s (Some e)) w
          end in
        let j' := {| BATCH_START := BATCH_START j;
                     ARCHIVED := wrap64 (ARCHIVED j + BATCH_SIZE a);
                     DELETED := DELETED j;
                     copies := S (copies j) |} in
        copy_sub_batches fuel' lo hi WINDOW_COUNT
          (wrap64 (SUB_OFFSET + BATCH_SIZE a)) j' w'
    end
  else (true, j, w).

(** [while [ "$BATCH_START" -lt "$CUTOFF" ]]: one window per turn. *)
Fixpoint windows (fuel : nat) (j : job) (w : world) : bool * job * world :=
  if BATCH_START j <? cutoff then
    match fuel with
    | O => (false, j, w)
    | S fuel' =>
        let BATCH_END0 := wrap64 (BATCH_START j + BATCH_WINDOW a) in
        let BATCH_END := if BATCH_END0 >? cutoff then cutoff else BATCH_END0 in
        let WINDOW_COUNT :=
          count_where (in_window (BATCH_START j) BATCH_END) (hot (cfg w)) in
        let w0 := logged (Sql (CountWindow (BATCH_START j) BATCH_END) None) w in
        if WINDOW_COUNT =? 0 then
          windows fuel'
            {| BATCH_START := BATCH_END; ARCHIVED := ARCHIVED j;
               DELETED := DELETED j; copies := copies j |} w0
        else
          match copy_sub_batches fuel' (BATCH_START j) BATCH_END
                  WINDOW_COUNT 0 j w0 with
          | (false, j1, w1) => (false, j1, w1)
          | (true, j1, w1) =>
              (* Delete from events_hot only after remote copy *)
              let '(REMOVED, d) :=
                delete_window (BATCH_START j) BATCH_END (cfg w1) in
              let w2 :=
                logged (Sql (DeleteWindow (BATCH_START j) BATCH_END) None)
                  (with_cfg d w1) in
              windows fuel'
                {| BATCH_START := BATCH_END; ARCHIVED := ARCHIVED j1;
                   DELETED := wrap64 (DELETED j1 + REMOVED);
                   copies := copies j1 |} w2
          end
    end
  else (true, j, w).
End Run.

(** The whole script, given [fuel] turns of its loops. *)
Definition main (fuel : nat) (net : nat -> bool) (a : args) (w : world)
  : result * world :=
  if String.eqb (NODE_NAME a) EmptyString then (Halted MissingArgument, w)
  else
    match CUTOFF a with
    | None => (Halted MissingArgument, w)
    | Some cutoff =>
        if negb (node_name_ok (NODE_NAME a)) then (Halted InvalidName, w)
        else if negb (is_partition (events_archive (NODE_NAME a))
                        (partitions (cfg w)))
        then (Halted PartitionNotFound, w)
        else
          let TOTAL := count_where (below cutoff) (hot (cfg w)) in
          if TOTAL =? 0 then (Halted NothingToDo, w)
          else
            match min_created_at (below cutoff) (hot (cfg w)) with
            | None => (Halted NothingToDo, w)   (* no row: TOTAL is 0 *)
            | Some MIN_TS =>
                if DRY_RUN a then (Halted DryRunOnly, w)
                else if negb (String.eqb (to_lower (CONFIRM a)) "y")
                then (Halted Declined, w)
                else
                  match windows net a cutoff fuel
                          {| BATCH_START := MIN_TS; ARCHIVED := 0;
                             DELETED := 0; copies := O |} w with
                  | (true, j, w') => (Done (ARCHIVED j) (DELETED j), w')
                  | (false, _, w') => (StillRunning, w')
                  end
            end
    end.

End ArchiveEvents.

(* ===================================================================== *)
(** * Routing of inserts and of queries over the partitions                *)
(* ===================================================================== *)

(** [from <= ts < to] for a key and a partition's bounds. *)
Definition key_in_range (ts : Z) (p : partition) : bool :=
  negb (bound_lt (Ts ts) (part_from p)) && bound_lt (Ts ts) (part_to p).

(** [INSERT INTO events .. ON CONFLICT DO NOTHING] for one row, as the
    migration and the narrowing procedure run it: the row goes to the
    partition whose range holds its [event_created_at]; no such partition is
    an error.  A row for a foreign partition lands in [events_data] of its
    storage node. *)
Definition insert_events (r : event) (w : world) : sql_error + world :=
  match find (key_in_range (event_created_at r)) (partitions (cfg w)) with
  | None => inl NoPartitionForRow
  | Some p =>
      match relname p with
      | events_hot_rel => inr (with_cfg (insert_events_hot r (cfg w)) w)
      | events_archive node =>
          match servers (cfg w) !! node with
          | None => inl UndefinedTable
          | Some host =>
              match storage w !! host with
              | Some t =>
                  inr (with_storage
                         (<[host := insert_events_data r t]> (storage w)) w)
              | None => inl RemoteUnreachable
              end
          end
      end
  end.

(** The time bounds of a REQ filter: [since] gives
    [event_created_at >= since], [until] gives [event_created_at <= until]. *)
Record time_filter := {
  since : option Z;
  until : option Z
}.

(** Some key of [[from, to)] satisfies the filter. *)
Definition range_intersects (q : time_filter) (p : partition) : bool :=
  match since q with
  | Some s => bound_lt (Ts s) (part_to p)
  | None => true
  end
  && match until q with
     | Some u => negb (bound_lt (Ts u) (part_from p))
     | None => true
     end
  && match since q, until q with
     | Some s, Some u => s <=? u
     | _, _ => true
     end.

(** Modelled from the spec: the relational engine's [query], which is not
    part of the repository: a query executes against every partition whose
    range intersects the predicate's key bounds, and against every partition
    when the predicate has no key bound. *)
Definition partitions_visited (q : time_filter) (ps : list partition)
  : list relation :=
  map relname (List.filter (range_intersects q) ps).

(** The layout the engine maintains: every range is non-empty and no two
    partitions overlap. *)
Fixpoint disjoint_ranges (ps : list partition) : bool :=
  match ps with
  | [] => true
  | p :: r =>
      bound_lt (part_from p) (part_to p)
      && forallb (fun x => negb (ranges_overlap (part_from p) (part_to p)
                                   (part_from x) (part_to x))) r
      && disjoint_ranges r
  end.

(* ===================================================================== *)
(** * A small deployment, used to run the scripts                          *)
(* ===================================================================== *)

Module Deployment.

Definition ev (eid : string) (created_at : Z) (tgs : list (list string))
  : event :=
  {| id := ("uuid-" ++ eid)%string; event_id := eid; event_pubkey := "author";
     event_kind := 1; event_created_at := created_at;
     event_content := "hello"; event_tags := tgs; event_signature := "sig";
     first_seen := None; deleted_at := None; remote_address := None;
     expires_at := None; event_deduplication := None |}.

Definition e1 := ev "e1" 1100 [["p"; "alice"]].
Definition e2 := ev "e2" 1200 [["e"; "e1"]; ["client"; "web"]].
Definition e3 := ev "e3" 5000 [].

Definition node1_addr : string := "200:ef01::1".

(** A coordinator whose hot partition has been narrowed to [[1000, MAX)],
    one storage node up and not yet registered, an empty whitelist. *)
Definition narrowed : world :=
  {| cfg := {| hot := []; tags := []; servers := ∅; user_mappings := ∅;
               foreign_tables := ∅;
               partitions := [ {| relname := events_hot_rel;
                                  part_from := Ts 1000;
                                  part_to := MAXVALUE |} ] |};
     storage := {[ node1_addr := [] ]};
     ygg_config := Some [];
     ygg_nodes := Some ∅;
     jq_installed := true;
     log := [] |}.

(** The coordinator right after the migration: the hot partition covers
    every timestamp. *)
Definition migrated : world :=
  with_cfg (with_partitions
              [ {| relname := events_hot_rel; part_from := MINVALUE;
                   part_to := MAXVALUE |} ] (cfg narrowed)) narrowed.

Definition add_node1 : AddStorageNode.args :=
  {| AddStorageNode.YGG_ADDR := node1_addr;
     AddStorageNode.NODE_NAME := "node1";
     AddStorageNode.DB_PASSWORD := "securepass";
     AddStorageNode.FROM_TS := MINVALUE;
     AddStorageNode.TO_TS := Ts 1000;
     AddStorageNode.STORAGE_PUBKEY := "aabbcc" |}.

(** node1 registered for [[MIN, 1000)]. *)
Definition registered : world := snd (AddStorageNode.main add_node1 narrowed).

Definition insert_or_keep (r : event) (w : world) : world :=
  match insert_events r w with
  | inr w' => w'
  | inl _ => w
  end.

(** Three events written through [events]; all three land in the hot
    partition and get their tag rows from the trigger. *)
Definition loaded : world :=
  insert_or_keep e3 (insert_or_keep e2 (insert_or_keep e1 registered)).

Definition archive_node1 : ArchiveEvents.args :=
  {| ArchiveEvents.NODE_NAME := "node1";
     ArchiveEvents.CUTOFF := Some 2000;
     ArchiveEvents.BATCH_SIZE := 2;
     ArchiveEvents.BATCH_WINDOW := 500;
     ArchiveEvents.DRY_RUN := false;
     ArchiveEvents.CONFIRM := "y" |}.

Definition node_up : nat -> bool := fun _ => true.
Definition node_down : nat -> bool := fun _ => false.

(** A name whose first line is well formed and whose second line is not. *)
Definition two_line_name : string :=
  ("node1" ++ String LF "x; DROP TABLE events")%string.

End Deployment.

(** A relay whose collaborators carry no data, with the message types of
    the protocol. *)
Module Relay.
Definition message_types : MessageType.values :=
  {| MessageType.EVENT := "EVENT"; MessageType.REQ := "REQ";
     MessageType.AUTH := "AUTH"; MessageType.CLOSE := "CLOSE" |}.

Definition factory : string -> unit -> handler unit unit unit unit unit unit unit + js_error :=
  messageHandlerFactory (fun _ : unit => tt) (fun _ : unit => tt) tt tt
    message_types tt tt.
End Relay.

(* ===================================================================== *)
(** * Vocabulary of the statements                                        *)
(* ===================================================================== *)

Definition no_line_feed (s : string) : bool :=
  all_chars (fun c => negb (Ascii.eqb c LF)) s.

(** What a run added to the log. *)
Definition new_commands (w w' : world) : list command :=
  skipn (length (log w)) (log w').

Definition is_detach (c : command) : bool :=
  match c with Sql (DetachPartition _) _ => true | _ => false end.

Definition is_disallow (c : command) : bool :=
  match c with DisallowKey _ => true | _ => false end.

Definition is_forget (c : command) : bool :=
  match c with ForgetNode _ => true | _ => false end.

Fixpoint first_index (p : command -> bool) (l : list command) : option nat :=
  match l with
  | [] => None
  | c :: r => if p c then Some O else option_map S (first_index p r)
  end.

(** Both kinds of command are run, the first kind before the second. *)
Definition runs_before (p q : command -> bool) (l : list command) : bool :=
  match first_index p l, first_index q l with
  | Some i, Some j => (i <? j)%nat
  | _, _ => false
  end.

(** The rows of [events_data] on the storage node at [host]. *)
Definition stored (w : world) (host : string) : list event :=
  default [] (storage w !! host).

(** [event_created_at >= C] *)
Definition at_or_above (C : Z) (e : event) : bool := C <=? event_created_at e.

(** A statement of the archival loop whose window ends at or below [C]. *)
Definition confined (C : Z) (c : command) : Prop :=
  match c with
  | Sql (CountWindow _ hi) _ => hi <= C
  | Sql (CopyWindow _ _ hi _ _) _ => hi <= C
  | Sql (DeleteWindow _ hi) _ => hi <= C
  | _ => False
  end.

(** What a run with cutoff [C] may do to the world: it only adds statements
    confined below [C] to the log, keeps every hot row at or above [C] and
    adds no hot row, stores only rows that were hot and below [C], and leaves
    the catalog alone. *)
Definition frame (C : Z) (w w' : world) : Prop :=
  (exists l, log w' = log w ++ l /\ Forall (confined C) l)
  /\ List.filter (at_or_above C) (hot (cfg w'))
     = List.filter (at_or_above C) (hot (cfg w))
  /\ incl (hot (cfg w')) (hot (cfg w))
  /\ (forall host e, In e (stored w' host) ->
        In e (stored w host) \/ (event_created_at e < C /\ In e (hot (cfg w))))
  /\ partitions (cfg w') = partitions (cfg w)
  /\ foreign_tables (cfg w') = foreign_tables (cfg w)
  /\ servers (cfg w') = servers (cfg w).

(** No row of [t] that is below the cutoff [C] is below [x]. *)
Definition cleared_up_to (x C : Z) (t : list event) : Prop :=
  forall e, In e t -> event_created_at e < C -> x <= event_created_at e.


(** The attach statement of add-storage-node.sh was refused for an overlap
    and the store is as it was: same partitions, rows, tag rows and storage
    nodes. *)
Definition attach_refused (a : AddStorageNode.args) (w w' : world) : Prop :=
  last (log w')
  = Some (Sql (AttachPartition (AddStorageNode.NODE_NAME a)
                 (AddStorageNode.FROM_TS a) (AddStorageNode.TO_TS a))
            (Some RangeOverlap))
  /\ partitions (cfg w') = partitions (cfg w)
  /\ hot (cfg w') = hot (cfg w)
  /\ tags (cfg w') = tags (cfg w)
  /\ storage w' = storage w.

(** ** Further runs on the small deployment *)

Module Scenario.

(** The archive of node1 with one row per copy statement. *)
Definition archive_by_one : ArchiveEvents.args :=
  {| ArchiveEvents.NODE_NAME := "node1";
     ArchiveEvents.CUTOFF := Some 2000;
     ArchiveEvents.BATCH_SIZE := 1;
     ArchiveEvents.BATCH_WINDOW := 500;
     ArchiveEvents.DRY_RUN := false;
     ArchiveEvents.CONFIRM := "Y" |}.

(** A run stopped after its first copy statement. *)
Definition interrupted : world :=
  snd (ArchiveEvents.main 2 Deployment.node_up archive_by_one Deployment.loaded).

(** An archive whose only window holds three rows, two rows per copy. *)
Definition archive_three : ArchiveEvents.args :=
  {| ArchiveEvents.NODE_NAME := "node1";
     ArchiveEvents.CUTOFF := Some 6000;
     ArchiveEvents.BATCH_SIZE := 2;
     ArchiveEvents.BATCH_WINDOW := 10000;
     ArchiveEvents.DRY_RUN := false;
     ArchiveEvents.CONFIRM := "y" |}.

(** The archive of node1 called with [--batch-size 0]. *)
Definition archive_no_batch : ArchiveEvents.args :=
  {| ArchiveEvents.NODE_NAME := "node1";
     ArchiveEvents.CUTOFF := Some 2000;
     ArchiveEvents.BATCH_SIZE := 0;
     ArchiveEvents.BATCH_WINDOW := 500;
     ArchiveEvents.DRY_RUN := false;
     ArchiveEvents.CONFIRM := "y" |}.

End Scenario.

(** ** Vocabulary for the archival run as a whole *)

(** The event identifiers held by a table. *)
Definition event_ids (t : list event) : list string := map event_id t.

(** The identifier [eid] is on the storage node at [host]. *)
Definition on_node (w : world) (host eid : string) : Prop :=
  has_event_id eid (stored w host) = true.

(** What no step of an archive run undoes or touches: the catalog entries of
    the foreign table, the Yggdrasil files, the existence of a storage node's
    table, the identifiers it already holds and their uniqueness; the hot
    partition never grows. *)
Definition archive_step (w w' : world) : Prop :=
  foreign_tables (cfg w') = foreign_tables (cfg w)
  /\ servers (cfg w') = servers (cfg w)
  /\ partitions (cfg w') = partitions (cfg w)
  /\ ygg_config w' = ygg_config w
  /\ ygg_nodes w' = ygg_nodes w
  /\ (length (hot (cfg w')) <= length (hot (cfg w)))%nat
  /\ (forall host, is_Some (storage w !! host) -> is_Some (storage w' !! host))
  /\ (forall host eid, on_node w host eid -> on_node w' host eid)
  /\ (forall host, NoDup (event_ids (stored w host)) ->
                   NoDup (event_ids (stored w' host))).

(** Every row of [rows] that is below the cutoff [C] is still hot or has its
    identifier on the storage node. *)
Definition none_lost (C : Z) (host : string) (rows : list event) (w : world)
  : Prop :=
  forall e, In e rows -> event_created_at e < C ->
            In e (hot (cfg w)) \/ on_node w host (event_id e).

(** The conditions under which every copy statement of a run succeeds: the
    foreign table and its server exist, the storage node has its table and
    answers every time. *)
Definition copy_path_ready (net : nat -> bool) (a : ArchiveEvents.args)
    (host : string) (w : world) : Prop :=
  ArchiveEvents.NODE_NAME a ∈ foreign_tables (cfg w)
  /\ servers (cfg w) !! ArchiveEvents.NODE_NAME a = Some host
  /\ is_Some (storage w !! host)
  /\ (forall n, net n = true).

(** ** Vocabulary for the topology scripts *)

(** The partition add-storage-node.sh asks for. *)
Definition node_partition (a : AddStorageNode.args) : partition :=
  {| relname := events_archive (AddStorageNode.NODE_NAME a);
     part_from := AddStorageNode.FROM_TS a;
     part_to := AddStorageNode.TO_TS a |}.

(** The coordinator after the here-document of add-storage-node.sh: the three
    objects created where missing, the partition attached unless the engine
    refuses it. *)
Definition registered_cfg (a : AddStorageNode.args) (d : coordinator)
  : coordinator :=
  let d3 :=
    create_foreign_table (AddStorageNode.NODE_NAME a)
      (create_user_mapping (AddStorageNode.NODE_NAME a) (AddStorageNode.DB_PASSWORD a)
         (create_server (AddStorageNode.NODE_NAME a) (AddStorageNode.YGG_ADDR a) d)) in
  match attach_partition (AddStorageNode.NODE_NAME a) (AddStorageNode.FROM_TS a)
          (AddStorageNode.TO_TS a) d3 with
  | inr d4 => d4
  | inl _ => d3
  end.

(** The coordinator after the here-document of remove-storage-node.sh. *)
Definition removed_cfg (name : string) (d : coordinator) : coordinator :=
  let d1 := match detach_partition name d with inr d' => d' | inl _ => d end in
  drop_server name (drop_user_mapping name (drop_foreign_table name d1)).

(** Nothing in the world carries the node name. *)
Definition unknown_node (name : string) (w : world) : Prop :=
  servers (cfg w) !! name = None
  /\ user_mappings (cfg w) !! name = None
  /\ (name ∉ foreign_tables (cfg w))
  /\ is_partition (events_archive name) (partitions (cfg w)) = false
  /\ (forall nodes, ygg_nodes w = Some nodes -> nodes !! name = None).

(** Two worlds that differ at most by their log. *)
Definition same_state (w w' : world) : Prop :=
  cfg w' = cfg w /\ storage w' = storage w
  /\ ygg_config w' = ygg_config w /\ ygg_nodes w' = ygg_nodes w
  /\ jq_installed w' = jq_installed w.

(** The rows of the world: hot rows, tag rows and the storage nodes. *)
Definition same_rows (w w' : world) : Prop :=
  hot (cfg w') = hot (cfg w) /\ tags (cfg w') = tags (cfg w)
  /\ storage w' = storage w.

(** ** Vocabulary for the tag rows of archived events *)

(** What the delete statements of a run have done to the tables [d0] by the
    time they are [d]: the rows that [keep] rejects have left the hot
    partition, and with them every tag row that carries one of their
    identifiers; all of them were below [C]. *)
Definition swept (C : Z) (d0 d : coordinator) : Prop :=
  exists keep : event -> bool,
    hot d = List.filter keep (hot d0)
    /\ tags d
       = List.filter
           (fun r => negb (has_event_id (tag_event_id r)
                             (List.filter (fun e => negb (keep e)) (hot d0))))
           (tags d0)
    /\ (forall e, keep e = false -> event_created_at e < C).

(** ** Vocabulary for the trigger *)

(** A printable ASCII character other than the double quote and the
    backslash: the text form of a jsonb string holds it as it is. *)
Definition plain_char (c : ascii) : bool :=
  let n := nat_of_ascii c in
  ((32 <=? n) && (n <? 127))%nat
  && negb (Ascii.eqb c DQ || Ascii.eqb c BACKSLASH).

Definition plain (s : string) : bool := all_chars plain_char s.

(** ** The migration's copy of [events_old] *)

Module Migration.

(** The only partition right after steps 3 and 4 of [up]: [events_hot], for
    every timestamp. *)
Definition events_hot_everything : partition :=
  {| relname := events_hot_rel; part_from := MINVALUE; part_to := MAXVALUE |}.

(** Steps 3 and 4: the partitioned [events] is created empty with
    [events_hot] as its only partition; [event_tags] is not touched. *)
Definition create_events (d : coordinator) : coordinator :=
  with_partitions [events_hot_everything] (with_hot [] d).

(** Step 7: [INSERT INTO events (..) SELECT .. FROM events_old
    ON CONFLICT DO NOTHING], the rows in the order the scan gives them; the
    trigger created in step 6 fires for each row that goes in.  A row that
    cannot be routed makes the statement fail. *)
Fixpoint copy_events_old (events_old : list event) (w : world)
  : sql_error + world :=
  match events_old with
  | [] => inr w
  | r :: rows =>
      match insert_events r w with
      | inl e => inl e
      | inr w' => copy_events_old rows w'
      end
  end.

(** [up], as far as the rows go; on an error the transaction is rolled
    back and the error is thrown again. *)
Definition up (events_old : list event) (w : world) : sql_error + world :=
  copy_events_old events_old (with_cfg (create_events (cfg w)) w).

End Migration.

(** No row collides with a row before it on one of the unique indexes of
    [events_hot]. *)
Fixpoint unique_rows (rows : list event) : bool :=
  match rows with
  | [] => true
  | r :: rest =>
      forallb (fun x => negb (hot_conflict x r)) rest && unique_rows rest
  end.

(** The tag rows the trigger writes when [r] is inserted. *)
Definition tag_rows_of_event (r : event) : list tag_row :=
  process_event_tags TG_INSERT None (Some r) [].

(* ===================================================================== *)
(** * Properties                                                          *)
(* ===================================================================== *)

(** ** Message dispatch *)

Lemma substring_0_length (n : nat) (s : string) :
  String.length (String.substring 0 n s) = Nat.min n (String.length s).
Proof.
  revert s; induction n as [|n IH]; intros [|c s]; simpl; auto.
Qed.

Lemma substring_0_prefix (n : nat) (s : string) :
  String.prefix (String.substring 0 n s) s = true.
Proof.
  revert s; induction n as [|n IH]; intros [|c s]; simpl; auto.
  destruct (Ascii.ascii_dec c c); [apply IH | congruence].
Qed.

(** C8. A message whose type is EVENT, REQ, AUTH or CLOSE gets a handler; any
    other type makes the factory throw an error whose message ends with the
    first 64 characters (at most) of that type. *)
Theorem messageHandlerFactory_dispatch
    (ER UR WA ESF SASF SF RLF : Type)
    (eventStrategyFactory : ER -> ESF)
    (signedAuthEventStrategyFactory : unit -> SASF)
    (createSettings : SF) (slidingWindowRateLimiterFactory : RLF)
    (MT : MessageType.values)
    (eventRepository : ER) (userRepository : UR) (t : string) (adapter : WA) :
  let factory :=
    messageHandlerFactory eventStrategyFactory signedAuthEventStrategyFactory
      createSettings slidingWindowRateLimiterFactory MT
      eventRepository userRepository in
  (t = MessageType.EVENT MT \/ t = MessageType.REQ MT
   \/ t = MessageType.AUTH MT \/ t = MessageType.CLOSE MT ->
   exists h, factory t adapter = inl h)
  /\
  (t <> MessageType.EVENT MT -> t <> MessageType.REQ MT ->
   t <> MessageType.AUTH MT -> t <> MessageType.CLOSE MT ->
   exists u,
     factory t adapter = inr (Error ("Unknown message type: " ++ u)%string)
     /\ u = String.substring 0 64 t
     /\ String.prefix u t = true
     /\ (String.length u <= 64)%nat).
Proof.
  intros factory. unfold factory, messageHandlerFactory. split.
  - intros H.
    destruct (String.eqb_spec t (MessageType.EVENT MT)); [eauto|].
    destruct (String.eqb_spec t (MessageType.REQ MT)); [eauto|].
    destruct (String.eqb_spec t (MessageType.AUTH MT)); [eauto|].
    destruct (String.eqb_spec t (MessageType.CLOSE MT)); [eauto|].
    exfalso; tauto.
  - intros HE HR HA HC.
    destruct (String.eqb_spec t (MessageType.EVENT MT)); [contradiction|].
    destruct (String.eqb_spec t (MessageType.REQ MT)); [contradiction|].
    destruct (String.eqb_spec t (MessageType.AUTH MT)); [contradiction|].
    destruct (String.eqb_spec t (MessageType.CLOSE MT)); [contradiction|].
    exists (String.substring 0 64 t). repeat split.
    + apply substring_0_prefix.
    + rewrite substring_0_length. apply Nat.le_min_l.
Qed.

Lemma messageHandlerFactory_dispatch_witness :
  (exists h, Relay.factory "REQ" tt = inl h)
  /\ (exists u, Relay.factory "NOTICE" tt
               = inr (Error ("Unknown message type: " ++ u)%string)
               /\ u = String.substring 0 64 "NOTICE"
               /\ String.prefix u "NOTICE" = true
               /\ (String.length u <= 64)%nat).
Proof.
  split.
  - apply (proj1 (messageHandlerFactory_dispatch
                    unit unit unit unit unit unit unit (fun _ => tt) (fun _ => tt)
                    tt tt Relay.message_types tt tt "REQ" tt)).
    right; left; reflexivity.
  - apply (proj2 (messageHandlerFactory_dispatch
                    unit unit unit unit unit unit unit (fun _ => tt) (fun _ => tt)
                    tt tt Relay.message_types tt tt "NOTICE" tt));
      discriminate.
Defined.

(** ** Validation of the node name *)

Lemma split_lf_single_line (s : string) :
  no_line_feed s = true ->
  split_lf (s ++ String LF EmptyString)%string = [s; EmptyString].
Proof.
  induction s as [|c s IH]; simpl; intros H.
  - reflexivity.
  - apply andb_true_iff in H as [Hc Hs].
    apply negb_true_iff in Hc. rewrite Hc, (IH Hs). reflexivity.
Qed.

Lemma echo_option_not_a_name (s : string) :
  is_echo_option s = true -> line_matches s = false.
Proof.
  destruct s as [|c s]; [discriminate|].
  destruct s as [|c' s]; simpl.
  - destruct c as [[] [] [] [] [] [] [] []]; discriminate.
  - destruct c as [[] [] [] [] [] [] [] []]; try discriminate. reflexivity.
Qed.

(** On a name of one line the scripts' test is the pattern itself. *)
Lemma node_name_ok_single_line (s : string) :
  no_line_feed s = true -> node_name_ok s = matches_name_pattern s.
Proof.
  intros H. unfold node_name_ok, matches_name_pattern, echo.
  destruct (is_echo_option s) eqn:Ho.
  - rewrite (echo_option_not_a_name s Ho).
    destruct (has_char _ s); reflexivity.
  - unfold grep_q_name, grep_lines. rewrite (split_lf_single_line s H).
    simpl. apply orb_false_r.
Qed.

(** C9. The test on the node name lets through a name of two lines whose
    first line is well formed: the name does not match the pattern, and yet
    each of the three scripts goes past its check and builds its statements
    with the name. *)
Theorem node_name_check_passes_two_line_name :
  matches_name_pattern Deployment.two_line_name = false
  /\ node_name_ok Deployment.two_line_name = true
  /\ (let '(r, w) := RemoveStorageNode.main Deployment.two_line_name
                        Deployment.registered in
      r = inl tt
      /\ In (Sql (DropServer Deployment.two_line_name) None) (log w))
  /\ (let '(r, w) :=
        AddStorageNode.main
          {| AddStorageNode.YGG_ADDR := Deployment.node1_addr;
             AddStorageNode.NODE_NAME := Deployment.two_line_name;
             AddStorageNode.DB_PASSWORD := "securepass";
             AddStorageNode.FROM_TS := Ts 0;
             AddStorageNode.TO_TS := Ts 500;
             AddStorageNode.STORAGE_PUBKEY := "" |}
          Deployment.narrowed in
      r = inl tt
      /\ is_partition (events_archive Deployment.two_line_name)
           (partitions (cfg w)) = true)
  /\ fst (ArchiveEvents.main 0 Deployment.node_up
            {| ArchiveEvents.NODE_NAME := Deployment.two_line_name;
               ArchiveEvents.CUTOFF := Some 2000;
               ArchiveEvents.BATCH_SIZE := 2;
               ArchiveEvents.BATCH_WINDOW := 500;
               ArchiveEvents.DRY_RUN := false;
               ArchiveEvents.CONFIRM := "y" |}
            Deployment.loaded)
     = ArchiveEvents.Halted PartitionNotFound.
Proof.
  repeat split; try (vm_compute; reflexivity).
  vm_compute. tauto.
Qed.

(** ** Duplicate-tolerant inserts *)

Lemma has_event_id_app (eid : string) (t u : list event) :
  has_event_id eid (t ++ u) = has_event_id eid t || has_event_id eid u.
Proof. apply existsb_app. Qed.

Lemma has_event_id_after_insert (r : event) (t : list event) :
  has_event_id (event_id r) (insert_events_data r t) = true.
Proof.
  unfold insert_events_data.
  destruct (has_event_id (event_id r) t) eqn:E; [exact E|].
  rewrite has_event_id_app. simpl. rewrite String.eqb_refl.
  apply orb_true_iff. right. reflexivity.
Qed.

Lemma insert_events_data_twice (r : event) (t : list event) :
  insert_events_data r (insert_events_data r t) = insert_events_data r t.
Proof.
  unfold insert_events_data at 1.
  rewrite has_event_id_after_insert. reflexivity.
Qed.

Lemma hot_conflict_refl (r : event) : hot_conflict r r = true.
Proof.
  unfold hot_conflict. rewrite (String.eqb_refl (event_id r)).
  rewrite orb_true_r. reflexivity.
Qed.

Lemma insert_events_hot_twice (r : event) (d : coordinator) :
  insert_events_hot r (insert_events_hot r d) = insert_events_hot r d.
Proof.
  unfold insert_events_hot.
  destruct (existsb (hot_conflict r) (hot d)) eqn:E.
  - rewrite E. reflexivity.
  - simpl. rewrite existsb_app. simpl. rewrite hot_conflict_refl.
    rewrite orb_true_r. reflexivity.
Qed.

Lemma insert_events_hot_partitions (r : event) (d : coordinator) :
  partitions (insert_events_hot r d) = partitions d.
Proof.
  unfold insert_events_hot. destruct (existsb _ _); reflexivity.
Qed.

Lemma insert_events_hot_servers (r : event) (d : coordinator) :
  servers (insert_events_hot r d) = servers d.
Proof.
  unfold insert_events_hot. destruct (existsb _ _); reflexivity.
Qed.

(** C7. Inserting a record that has just been inserted changes nothing and
    is not an error: in [events_data] of a storage node, in the hot
    partition (rows and tag rows alike), and through [events] whichever
    partition the record is routed to; in particular the row count stays. *)
Theorem insert_same_event_twice_is_noop (r : event) :
  (forall t : list event,
      insert_events_data r (insert_events_data r t) = insert_events_data r t
      /\ length (insert_events_data r (insert_events_data r t))
         = length (insert_events_data r t))
  /\ (forall d : coordinator,
      insert_events_hot r (insert_events_hot r d) = insert_events_hot r d
      /\ length (hot (insert_events_hot r (insert_events_hot r d)))
         = length (hot (insert_events_hot r d)))
  /\ (forall w w1 : world,
      insert_events r w = inr w1 -> insert_events r w1 = inr w1).
Proof.
  split; [|split].
  - intros t. rewrite insert_events_data_twice. split; reflexivity.
  - intros d. rewrite insert_events_hot_twice. split; reflexivity.
  - intros w w1. unfold insert_events.
    destruct (find _ (partitions (cfg w))) as [p|] eqn:Hp; [|discriminate].
    destruct (relname p) as [|node] eqn:Hrel.
    + intros H; injection H as <-. simpl.
      rewrite insert_events_hot_partitions, Hp, Hrel.
      rewrite insert_events_hot_twice. reflexivity.
    + destruct (servers (cfg w) !! node) as [host|] eqn:Hs; [|discriminate].
      destruct (storage w !! host) as [t|] eqn:Ht; [|discriminate].
      intros H; injection H as <-. simpl.
      rewrite Hp, Hrel, Hs. rewrite lookup_insert_eq.
      rewrite insert_events_data_twice, insert_insert_eq. reflexivity.
Qed.

Lemma insert_same_event_twice_is_noop_witness :
  insert_events Deployment.e1 (Deployment.insert_or_keep Deployment.e1 Deployment.registered)
  = inr (Deployment.insert_or_keep Deployment.e1 Deployment.registered).
Proof.
  apply (proj2 (proj2 (insert_same_event_twice_is_noop Deployment.e1))
           Deployment.registered).
  vm_compute. reflexivity.
Defined.

(** ** Partitions visited by a query *)

Lemma bound_lt_trans (a b c : bound) :
  bound_lt a b = true -> bound_lt b c = true -> bound_lt a c = true.
Proof.
  destruct a, b, c; simpl; try congruence; try reflexivity.
  intros H1 H2. apply Z.ltb_lt in H1, H2. apply Z.ltb_lt. lia.
Qed.

Lemma ranges_overlap_sym (f1 t1 f2 t2 : bound) :
  ranges_overlap f1 t1 f2 t2 = ranges_overlap f2 t2 f1 t1.
Proof. unfold ranges_overlap. apply andb_comm. Qed.

Lemma disjoint_ranges_nonempty (ps : list partition) :
  disjoint_ranges ps = true ->
  forall p, In p ps -> bound_lt (part_from p) (part_to p) = true.
Proof.
  induction ps as [|x r IH]; simpl; [tauto|].
  intros H p [<-|Hp].
  - apply andb_true_iff in H as [H _]. apply andb_true_iff in H as [H _]. exact H.
  - apply andb_true_iff in H as [_ H]. auto.
Qed.

Lemma disjoint_ranges_pairwise (ps : list partition) :
  disjoint_ranges ps = true ->
  forall p p', In p ps -> In p' ps ->
    p = p' \/
    ranges_overlap (part_from p) (part_to p) (part_from p') (part_to p') = false.
Proof.
  induction ps as [|x r IH]; simpl; [tauto|].
  intros H p p' Hp Hp'.
  apply andb_true_iff in H as [H Hr]. apply andb_true_iff in H as [_ Hx].
  rewrite forallb_forall in Hx.
  destruct Hp as [<-|Hp], Hp' as [<-|Hp'].
  - left; reflexivity.
  - right. apply negb_true_iff. auto.
  - right. rewrite ranges_overlap_sym. apply negb_true_iff. auto.
  - auto.
Qed.

(** C6, amended. With non-overlapping ranges and a hot partition that is
    open-ended above, a query whose [since] is strictly above the hot
    partition's lower bound (and whose [until], if any, is not below its
    [since]) visits the hot partition and no other; a query with no time
    bound visits every attached partition. *)
Theorem query_partitions_visited (ps : list partition) (hot_from : bound) :
  (forall (q : time_filter) (s : Z),
      disjoint_ranges ps = true ->
      In {| relname := events_hot_rel; part_from := hot_from;
            part_to := MAXVALUE |} ps ->
      since q = Some s ->
      bound_lt hot_from (Ts s) = true ->
      (forall u, until q = Some u -> s <= u) ->
      forall r, In r (partitions_visited q ps) <-> r = events_hot_rel)
  /\ partitions_visited {| since := None; until := None |} ps = map relname ps.
Proof.
  split.
  - intros q s Hdis Hhot Hs Hlt Hu r. unfold partitions_visited.
    rewrite in_map_iff. split.
    + intros (p & <- & Hp). apply filter_In in Hp as [Hin Hq].
      destruct (disjoint_ranges_pairwise ps Hdis _ _ Hhot Hin) as [<-|Hno];
        [reflexivity|exfalso].
      unfold range_intersects in Hq. rewrite Hs in Hq.
      apply andb_true_iff in Hq as [Hq _]. apply andb_true_iff in Hq as [Hq _].
      pose proof (bound_lt_trans _ _ _ Hlt Hq) as Hover.
      pose proof (disjoint_ranges_nonempty ps Hdis p Hin) as Hne.
      unfold ranges_overlap in Hno. simpl in Hno. rewrite Hover in Hno.
      destruct (part_from p), (part_to p); simpl in *; congruence.
    + intros ->. eexists; split; [|apply filter_In; split; [exact Hhot|]];
        [reflexivity|].
      unfold range_intersects. simpl. rewrite Hs.
      destruct (until q) as [u|] eqn:Eu; simpl.
      * specialize (Hu u eq_refl).
        assert ((s <=? u) = true) as -> by (apply Z.leb_le; lia).
        rewrite andb_true_r.
        destruct hot_from as [|l|]; simpl in *; try reflexivity; try congruence.
        apply Z.ltb_lt in Hlt. apply negb_true_iff. apply Z.ltb_ge. lia.
      * reflexivity.
  - unfold partitions_visited. f_equal.
    induction ps as [|x r IH]; simpl; [reflexivity|]. rewrite IH. reflexivity.
Qed.

Lemma query_partitions_visited_witness :
  In events_hot_rel
    (partitions_visited {| since := Some 1500; until := Some 1600 |}
       (partitions (cfg Deployment.registered)))
  /\ ~ In (events_archive "node1")
        (partitions_visited {| since := Some 1500; until := Some 1600 |}
           (partitions (cfg Deployment.registered))).
Proof.
  assert (forall r,
             In r (partitions_visited {| since := Some 1500; until := Some 1600 |}
                     (partitions (cfg Deployment.registered)))
             <-> r = events_hot_rel) as H.
  { apply (proj1 (query_partitions_visited
                    (partitions (cfg Deployment.registered)) (Ts 1000))
             {| since := Some 1500; until := Some 1600 |} 1500).
    - vm_compute. reflexivity.
    - vm_compute. left. reflexivity.
    - reflexivity.
    - reflexivity.
    - intros u Hu. injection Hu as <-. lia. }
  split.
  - apply H. reflexivity.
  - intros Hin. apply H in Hin. discriminate Hin.
Defined.

(** C6 as stated fails: with a hot partition bounded above, a query whose
    [since] is above the hot lower bound also visits the partition that
    follows; and a query whose [until] is below its [since] visits none. *)
Lemma query_since_visits_more_than_hot :
  let ps := [ {| relname := events_hot_rel; part_from := Ts 100;
                 part_to := Ts 200 |};
              {| relname := events_archive "node2"; part_from := Ts 200;
                 part_to := MAXVALUE |} ] in
  disjoint_ranges ps = true
  /\ partitions_visited {| since := Some 150; until := None |} ps
     = [events_hot_rel; events_archive "node2"]
  /\ ~ (forall r, In r (partitions_visited {| since := Some 150; until := None |} ps)
                 <-> r = events_hot_rel)
  /\ partitions_visited {| since := Some 150; until := Some 120 |}
       [ {| relname := events_hot_rel; part_from := Ts 100;
            part_to := MAXVALUE |} ] = [].
Proof.
  repeat split.
  intros H. specialize (H (events_archive "node2")).
  assert (events_archive "node2" = events_hot_rel) by (apply H; simpl; auto).
  discriminate.
Qed.

(** ** Order of the steps of remove-storage-node.sh *)

Lemma node_name_ok_nonempty (s : string) : node_name_ok s = true -> s <> EmptyString.
Proof. intros H ->. discriminate. Qed.

Lemma is_partition_removed (r : relation) (ps : list partition) :
  is_partition r
    (List.filter (fun p => negb (relation_eqb (relname p) r)) ps) = false.
Proof.
  induction ps as [|x ps IH]; simpl; [reflexivity|].
  destruct (relation_eqb (relname x) r) eqn:E; simpl; [exact IH|].
  rewrite E. exact IH.
Qed.

Ltac run_script :=
  unfold bind, modify, run, sql, always, get, ret, exit_with; simpl.

Ltac log_shape := simpl; rewrite <- ?app_assoc; reflexivity.





(** ** add-storage-node.sh with an overlapping range *)

Local Arguments create_server : simpl never.
Local Arguments create_user_mapping : simpl never.
Local Arguments create_foreign_table : simpl never.
Local Arguments attach_partition : simpl never.

Lemma create_objects_partitions (n host pw : string) (d : coordinator) :
  partitions (create_foreign_table n (create_user_mapping n pw (create_server n host d)))
  = partitions d.
Proof.
  unfold create_foreign_table, create_user_mapping, create_server. simpl.
  destruct (servers d !! n); simpl; destruct (user_mappings d !! n); reflexivity.
Qed.

Lemma create_objects_foreign_table (n host pw : string) (d : coordinator) :
  foreign_tables (create_foreign_table n (create_user_mapping n pw (create_server n host d)))
  = {[ n ]} ∪ foreign_tables d.
Proof.
  unfold create_foreign_table, create_user_mapping, create_server. simpl.
  destruct (servers d !! n); simpl; destruct (user_mappings d !! n); reflexivity.
Qed.

(** The attach is refused when the range collides with a partition. *)
Lemma attach_partition_overlap (n : string) (from to : bound) (d : coordinator) :
  n ∈ foreign_tables d ->
  is_partition (events_archive n) (partitions d) = false ->
  bound_lt from to = true ->
  existsb (fun p => ranges_overlap from to (part_from p) (part_to p))
    (partitions d) = true ->
  attach_partition n from to d = inl RangeOverlap.
Proof.
  intros Hin Hp Hne Hov. unfold attach_partition.
  rewrite (bool_decide_eq_true_2 _ Hin), Hp, Hne, Hov. reflexivity.
Qed.

Lemma register_overlap (a : AddStorageNode.args) (w : world) :
  is_partition (events_archive (AddStorageNode.NODE_NAME a)) (partitions (cfg w)) = false ->
  bound_lt (AddStorageNode.FROM_TS a) (AddStorageNode.TO_TS a) = true ->
  existsb (fun p => ranges_overlap (AddStorageNode.FROM_TS a) (AddStorageNode.TO_TS a)
                      (part_from p) (part_to p)) (partitions (cfg w)) = true ->
  exists w',
    AddStorageNode.register a w = (inl tt, w')
    /\ partitions (cfg w') = partitions (cfg w)
    /\ hot (cfg w') = hot (cfg w)
    /\ tags (cfg w') = tags (cfg w)
    /\ storage w' = storage w
    /\ ygg_config w' = ygg_config w
    /\ ygg_nodes w' = ygg_nodes w
    /\ log w' = log w ++
                  [Sql (CreateServer (AddStorageNode.NODE_NAME a) (AddStorageNode.YGG_ADDR a)) None;
                   Sql (CreateUserMapping (AddStorageNode.NODE_NAME a)) None;
                   Sql (CreateForeignTable (AddStorageNode.NODE_NAME a)) None;
                   Sql (AttachPartition (AddStorageNode.NODE_NAME a)
                          (AddStorageNode.FROM_TS a) (AddStorageNode.TO_TS a))
                       (Some RangeOverlap)].
Proof.
  intros Hp Hne Hov. unfold AddStorageNode.register. run_script.
  rewrite attach_partition_overlap.
  - eexists. split; [reflexivity|].
    unfold create_foreign_table, create_user_mapping, create_server. simpl.
    destruct (servers (cfg w) !! _); simpl;
      destruct (user_mappings (cfg w) !! _); simpl;
      repeat split; log_shape.
  - rewrite create_objects_foreign_table. set_solver.
  - rewrite create_objects_partitions. exact Hp.
  - exact Hne.
  - rewrite create_objects_partitions. exact Hov.
Qed.

Lemma existsb_eqb_not_in (k : string) (keys : list string) :
  ~ In k keys -> existsb (String.eqb k) keys = false.
Proof.
  induction keys as [|x keys IH]; simpl; [reflexivity|].
  intros H. apply orb_false_iff. split.
  - apply String.eqb_neq. intros ->. apply H. left. reflexivity.
  - apply IH. intros Hin. apply H. right. exact Hin.
Qed.

Lemma existsb_eqb_in (k : string) (keys : list string) :
  In k keys -> existsb (String.eqb k) keys = true.
Proof.
  intros H. apply existsb_exists. exists k. split; [exact H|apply String.eqb_refl].
Qed.

(** Step 1 without [--pubkey], or with a key that is already listed. *)
Lemma whitelist_update_skips (a : AddStorageNode.args) (w : world) :
  AddStorageNode.STORAGE_PUBKEY a = EmptyString
  \/ (exists keys, ygg_config w = Some keys /\ jq_installed w = true
                   /\ In (AddStorageNode.STORAGE_PUBKEY a) keys) ->
  AddStorageNode.whitelist_update a w = (inl tt, w).
Proof.
  unfold AddStorageNode.whitelist_update.
  intros [H|(keys & Hc & Hj & Hin)].
  - rewrite H. reflexivity.
  - destruct (String.eqb _ EmptyString); [reflexivity|].
    unfold bind, get. rewrite Hc, Hj. simpl.
    rewrite (existsb_eqb_in _ _ Hin). reflexivity.
Qed.

(** Step 1 with a key that is not yet listed. *)
Lemma whitelist_update_adds (a : AddStorageNode.args) (w : world)
    (keys : list string) :
  AddStorageNode.STORAGE_PUBKEY a <> EmptyString ->
  ygg_config w = Some keys ->
  jq_installed w = true ->
  ~ In (AddStorageNode.STORAGE_PUBKEY a) keys ->
  exists w1,
    AddStorageNode.whitelist_update a w = (inl tt, w1)
    /\ cfg w1 = cfg w
    /\ storage w1 = storage w
    /\ ygg_config w1 = Some (keys ++ [AddStorageNode.STORAGE_PUBKEY a])
    /\ ygg_nodes w1
       = (insert (AddStorageNode.NODE_NAME a) (AddStorageNode.STORAGE_PUBKEY a)
            <$> ygg_nodes w)
    /\ exists l, log w1 = log w ++ AllowKey (AddStorageNode.STORAGE_PUBKEY a) :: l.
Proof.
  intros Hk Hc Hj Hnin. apply String.eqb_neq in Hk.
  unfold AddStorageNode.whitelist_update. rewrite Hk.
  unfold bind at 1. unfold get. rewrite Hc, Hj. simpl.
  rewrite (existsb_eqb_not_in _ _ Hnin).
  destruct (ygg_nodes w) as [nodes|] eqn:Hn; run_script;
    eexists; (split; [reflexivity|]); simpl; repeat split;
    try assumption; try reflexivity; eexists; log_shape.
Qed.




(** ** The archival loop stays below the cutoff *)

Lemma frame_refl (C : Z) (w : world) : frame C w w.
Proof.
  repeat split; auto.
  - exists []. split; [symmetry; apply app_nil_r|constructor].
  - apply incl_refl.
Qed.

Lemma frame_trans (C : Z) (w1 w2 w3 : world) :
  frame C w1 w2 -> frame C w2 w3 -> frame C w1 w3.
Proof.
  intros ((l1 & Hl1 & Hf1) & Hh1 & Hi1 & Hs1 & Hp1 & Hft1 & Hsv1)
         ((l2 & Hl2 & Hf2) & Hh2 & Hi2 & Hs2 & Hp2 & Hft2 & Hsv2).
  repeat split; try congruence.
  - exists (l1 ++ l2). split.
    + rewrite Hl2, Hl1. symmetry. apply app_assoc.
    + apply Forall_app; split; assumption.
  - eapply incl_tran; eassumption.
  - intros host e He. destruct (Hs2 host e He) as [H|[H1 H2]]; [auto|].
    right. split; [exact H1|apply Hi1; exact H2].
Qed.

Lemma frame_logged (C : Z) (c : command) (w : world) :
  confined C c -> frame C w (logged c w).
Proof.
  intros Hc. repeat split; auto.
  - exists [c]. split; [reflexivity|]. constructor; [exact Hc|constructor].
  - apply incl_refl.
Qed.

Lemma in_insert_by_created_at (e x : event) (l : list event) :
  In x (insert_by_created_at e l) -> x = e \/ In x l.
Proof.
  induction l as [|y l IH]; simpl.
  - intros [<-|[]]. left; reflexivity.
  - destruct (event_created_at e <=? event_created_at y); simpl.
    + intros [<-|H]; [left; reflexivity|right; exact H].
    + intros [<-|H]; [right; left; reflexivity|].
      destruct (IH H) as [->|H']; [left; reflexivity|right; right; exact H'].
Qed.

Lemma in_order_by_created_at (x : event) (l : list event) :
  In x (order_by_created_at l) -> In x l.
Proof.
  induction l as [|y l IH]; simpl; [tauto|].
  intros H. apply in_insert_by_created_at in H as [->|H]; [left; reflexivity|].
  right. apply IH. exact H.
Qed.

Lemma in_firstn_in {A} (n : nat) (x : A) (l : list A) :
  In x (firstn n l) -> In x l.
Proof.
  revert l; induction n as [|n IH]; intros [|y l]; simpl; try tauto.
  intros [->|H]; [left; reflexivity|right; apply IH; exact H].
Qed.

Lemma in_skipn_in {A} (n : nat) (x : A) (l : list A) :
  In x (skipn n l) -> In x l.
Proof.
  revert l; induction n as [|n IH]; intros [|y l]; simpl; try tauto.
  intros H. right. apply IH. exact H.
Qed.

(** The rows of a batch are hot rows of the window. *)
Lemma select_batch_in_window (lo hi limit offset : Z) (t rows : list event) :
  select_batch lo hi limit offset t = Some rows ->
  forall e, In e rows -> In e t /\ in_window lo hi e = true.
Proof.
  unfold select_batch. destruct (_ || _); [discriminate|].
  intros H e He. injection H as <-.
  apply in_firstn_in, in_skipn_in, in_order_by_created_at in He.
  apply filter_In in He. exact He.
Qed.

Lemma in_insert_all_events_data (rows t : list event) (e : event) :
  In e (insert_all_events_data rows t) -> In e t \/ In e rows.
Proof.
  unfold insert_all_events_data. revert t.
  induction rows as [|r rows IH]; simpl; intros t H; [left; exact H|].
  apply IH in H as [H|H]; [|right; right; exact H].
  unfold insert_events_data in H. destruct (has_event_id _ t); [left; exact H|].
  apply in_app_or in H as [H|[<-|[]]]; [left; exact H|right; left; reflexivity].
Qed.

Lemma in_window_below (lo hi C : Z) (e : event) :
  hi <= C -> in_window lo hi e = true -> event_created_at e < C.
Proof.
  unfold in_window. intros H Hw. apply andb_true_iff in Hw as [_ Hw].
  apply Z.ltb_lt in Hw. lia.
Qed.

Lemma filter_filter_absorb {A} (p q : A -> bool) (l : list A) :
  (forall x, p x = true -> q x = true) ->
  List.filter p (List.filter q l) = List.filter p l.
Proof.
  intros H. induction l as [|x l IH]; simpl; [reflexivity|].
  destruct (q x) eqn:Eq; simpl.
  - rewrite IH. reflexivity.
  - destruct (p x) eqn:Ep; [|exact IH].
    rewrite (H x Ep) in Eq. discriminate.
Qed.

Lemma incl_filter {A} (p : A -> bool) (l : list A) : incl (List.filter p l) l.
Proof. intros x H. apply filter_In in H. tauto. Qed.

(** A copy statement that succeeds only stores hot rows of its window. *)
Lemma copy_window_frame (C : Z) (node : string) (lo hi limit offset : Z)
    (up : bool) (w w1 : world) :
  hi <= C ->
  ArchiveEvents.copy_window node lo hi limit offset up w = inr w1 ->
  frame C w w1 /\ log w1 = log w /\ cfg w1 = cfg w.
Proof.
  intros Hhi. unfold ArchiveEvents.copy_window.
  destruct (negb _); [discriminate|].
  destruct (select_batch lo hi limit offset (hot (cfg w))) as [rows|] eqn:Hb;
    [|discriminate].
  destruct (servers (cfg w) !! node) as [host|]; [|discriminate].
  destruct (storage w !! host) as [t|] eqn:Ht; [|discriminate].
  destruct up; [|discriminate].
  intros H; injection H as <-. simpl.
  repeat split; auto.
  - exists []. split; [symmetry; apply app_nil_r|constructor].
  - apply incl_refl.
  - intros host' e. unfold stored. simpl.
    destruct (decide (host = host')) as [<-|Hne].
    + rewrite lookup_insert_eq, Ht. simpl. intros He.
      apply in_insert_all_events_data in He as [He|He]; [left; exact He|].
      right. destruct (select_batch_in_window _ _ _ _ _ _ Hb e He) as [Hin Hw].
      split; [eapply in_window_below; eassumption|exact Hin].
    + rewrite lookup_insert_ne by exact Hne. auto.
Qed.

(** The delete statement of a window keeps every row at or above the cutoff. *)
Lemma delete_window_frame (C lo hi : Z) (w : world) :
  hi <= C ->
  frame C w
    (logged (Sql (DeleteWindow lo hi) None)
       (with_cfg (snd (delete_window lo hi (cfg w))) w)).
Proof.
  intros Hhi. repeat split; simpl; auto.
  - exists [Sql (DeleteWindow lo hi) None]. split; [reflexivity|].
    constructor; [exact Hhi|constructor].
  - apply filter_filter_absorb. intros e He.
    unfold at_or_above in He. apply Z.leb_le in He.
    apply negb_true_iff. unfold in_window.
    apply andb_false_iff. right. apply Z.ltb_ge. lia.
  - apply incl_filter.
Qed.

Lemma clamp_le (x C : Z) : (if x >? C then C else x) <= C.
Proof. destruct (x >? C) eqn:E; [lia|]. rewrite Z.gtb_ltb in E. apply Z.ltb_ge in E. exact E. Qed.

Lemma copy_sub_batches_frame (C : Z) (net : nat -> bool) (a : ArchiveEvents.args)
    (fuel : nat) (lo hi WINDOW_COUNT : Z) :
  hi <= C ->
  forall (SUB_OFFSET : Z) (j : ArchiveEvents.job) (w : world),
    frame C w
      (snd (ArchiveEvents.copy_sub_batches net a fuel lo hi WINDOW_COUNT
              SUB_OFFSET j w)).
Proof.
  intros Hhi. induction fuel as [|fuel IH]; intros off j w; simpl.
  - destruct (off <? WINDOW_COUNT); apply frame_refl.
  - destruct (off <? WINDOW_COUNT); [|apply frame_refl].
    eapply frame_trans; [|apply IH].
    destruct (ArchiveEvents.copy_window _ _ _ _ _ _ w) as [e|w1] eqn:Hc.
    + apply frame_logged. exact Hhi.
    + destruct (copy_window_frame C _ _ _ _ _ _ _ _ Hhi Hc) as (Hf & _ & _).
      eapply frame_trans; [exact Hf|]. apply frame_logged. exact Hhi.
Qed.

Lemma windows_frame (C : Z) (net : nat -> bool) (a : ArchiveEvents.args)
    (fuel : nat) :
  forall (j : ArchiveEvents.job) (w : world),
    frame C w (snd (ArchiveEvents.windows net a C fuel j w)).
Proof.
  induction fuel as [|fuel IH]; intros j w; simpl.
  - destruct (_ <? C); apply frame_refl.
  - destruct (_ <? C); [|apply frame_refl].
    set (BATCH_END := if _ >? C then C else _).
    assert (BATCH_END <= C) as Hle by apply clamp_le.
    pose proof (frame_logged C
                  (Sql (CountWindow (ArchiveEvents.BATCH_START j) BATCH_END) None)
                  w Hle) as Hcount.
    destruct (_ =? 0).
    + eapply frame_trans; [exact Hcount|apply IH].
    + pose proof (copy_sub_batches_frame C net a fuel
                    (ArchiveEvents.BATCH_START j) BATCH_END
                    (count_where (in_window (ArchiveEvents.BATCH_START j) BATCH_END)
                       (hot (cfg w))) Hle 0 j
                    (logged (Sql (CountWindow (ArchiveEvents.BATCH_START j) BATCH_END) None) w))
        as Hcopy.
      destruct (ArchiveEvents.copy_sub_batches _ _ _ _ _ _ _ _ _)
        as [[[] j1] w1]; simpl in Hcopy.
      * eapply frame_trans; [|apply IH].
        eapply frame_trans; [exact Hcount|].
        eapply frame_trans; [exact Hcopy|].
        apply delete_window_frame. exact Hle.
      * simpl. eapply frame_trans; [exact Hcount|exact Hcopy].
Qed.

Lemma main_frame (C : Z) (fuel : nat) (net : nat -> bool)
    (a : ArchiveEvents.args) (w : world) :
  ArchiveEvents.CUTOFF a = Some C ->
  frame C w (snd (ArchiveEvents.main fuel net a w)).
Proof.
  intros HC. unfold ArchiveEvents.main. rewrite HC.
  destruct (String.eqb _ _); [apply frame_refl|].
  destruct (negb (node_name_ok _)); [apply frame_refl|].
  destruct (negb (is_partition _ _)); [apply frame_refl|].
  destruct (_ =? 0); [apply frame_refl|].
  destruct (min_created_at _ _) as [MIN_TS|]; [|apply frame_refl].
  destruct (ArchiveEvents.DRY_RUN a); [apply frame_refl|].
  destruct (negb (String.eqb _ _)); [apply frame_refl|].
  pose proof (windows_frame C net a fuel
                {| ArchiveEvents.BATCH_START := MIN_TS; ArchiveEvents.ARCHIVED := 0;
                   ArchiveEvents.DELETED := 0; ArchiveEvents.copies := O |} w) as H.
  destruct (ArchiveEvents.windows _ _ _ _ _ _) as [[[] j] w']; exact H.
Qed.



(** ** A second archive run finds nothing to do *)

Lemma fold_left_min_le_init (xs : list Z) (x : Z) : fold_left Z.min xs x <= x.
Proof.
  revert x. induction xs as [|z xs IH]; simpl; intros x; [lia|].
  etransitivity; [apply IH|]. lia.
Qed.

Lemma fold_left_min_le (xs : list Z) (x y : Z) :
  y = x \/ In y xs -> fold_left Z.min xs x <= y.
Proof.
  revert x. induction xs as [|z xs IH]; simpl; intros x [H|H].
  - lia.
  - contradiction.
  - subst. etransitivity; [apply fold_left_min_le_init|]. lia.
  - destruct H as [->|H].
    + etransitivity; [apply fold_left_min_le_init|]. lia.
    + apply IH. right. exact H.
Qed.

Lemma min_created_at_le (p : event -> bool) (t : list event) (m : Z) :
  min_created_at p t = Some m ->
  forall e, In e t -> p e = true -> m <= event_created_at e.
Proof.
  unfold min_created_at. intros H e He Hp.
  assert (In (event_created_at e) (map event_created_at (List.filter p t))) as Hin.
  { apply in_map. apply filter_In. split; assumption. }
  destruct (map event_created_at (List.filter p t)) as [|x xs]; [discriminate|].
  injection H as <-. apply fold_left_min_le.
  destruct Hin as [->|Hin]; [left; reflexivity|right; exact Hin].
Qed.

Lemma count_where_zero (p : event -> bool) (t : list event) :
  count_where p t = 0 -> forall e, In e t -> p e = false.
Proof.
  unfold count_where. intros H e He.
  destruct (p e) eqn:Hp; [|reflexivity].
  assert (In e (List.filter p t)) as Hin by (apply filter_In; split; assumption).
  destruct (List.filter p t); [contradiction|]. simpl in H. lia.
Qed.

Lemma count_where_none (p : event -> bool) (t : list event) :
  (forall e, In e t -> p e = false) -> count_where p t = 0.
Proof.
  intros H. unfold count_where.
  assert (List.filter p t = []) as ->; [|reflexivity].
  induction t as [|x t IH]; simpl; [reflexivity|].
  rewrite (H x) by (left; reflexivity). apply IH.
  intros e He. apply H. right. exact He.
Qed.

Lemma copy_sub_batches_cfg (net : nat -> bool) (a : ArchiveEvents.args)
    (fuel : nat) (lo hi WINDOW_COUNT : Z) :
  forall (SUB_OFFSET : Z) (j : ArchiveEvents.job) (w : world),
    cfg (snd (ArchiveEvents.copy_sub_batches net a fuel lo hi WINDOW_COUNT
                SUB_OFFSET j w)) = cfg w.
Proof.
  induction fuel as [|fuel IH]; intros off j w; simpl.
  - destruct (off <? WINDOW_COUNT); reflexivity.
  - destruct (off <? WINDOW_COUNT); [|reflexivity].
    rewrite IH.
    destruct (ArchiveEvents.copy_window _ _ _ _ _ _ w) as [e|w1] eqn:Hc;
      [reflexivity|].
    destruct (copy_window_frame hi _ _ _ _ _ _ _ _ (Z.le_refl hi) Hc)
      as (_ & _ & H). exact H.
Qed.

(** A window that has been processed holds no hot row any more. *)
Lemma cleared_after_window (S E C : Z) (t : list event) :
  cleared_up_to S C t ->
  (forall e, In e t -> in_window S E e = false) ->
  cleared_up_to E C t.
Proof.
  intros Hinv Hw e He HC. specialize (Hinv e He HC). specialize (Hw e He).
  unfold in_window in Hw. apply andb_false_iff in Hw as [Hw|Hw].
  - apply Z.leb_gt in Hw. lia.
  - apply Z.ltb_ge in Hw. exact Hw.
Qed.

Lemma windows_done (C : Z) (net : nat -> bool) (a : ArchiveEvents.args)
    (fuel : nat) :
  forall (j j' : ArchiveEvents.job) (w w' : world),
    cleared_up_to (ArchiveEvents.BATCH_START j) C (hot (cfg w)) ->
    ArchiveEvents.windows net a C fuel j w = (true, j', w') ->
    forall e, In e (hot (cfg w')) -> below C e = false.
Proof.
  induction fuel as [|fuel IH]; intros j j' w w' Hinv; simpl.
  - destruct (_ <? C) eqn:Hlt; [discriminate|].
    intros H; injection H as <- <-. intros e He.
    unfold below. apply Z.ltb_ge. apply Z.ltb_ge in Hlt.
    destruct (Z.lt_ge_cases (event_created_at e) C) as [Hb|Hb]; [|lia].
    specialize (Hinv e He Hb). lia.
  - destruct (_ <? C) eqn:Hlt.
    + set (BATCH_END := if _ >? C then C else _).
      destruct (_ =? 0) eqn:Hz.
      * apply IH. simpl. apply Z.eqb_eq in Hz.
        eapply cleared_after_window; [exact Hinv|].
        apply count_where_zero. exact Hz.
      * pose proof (copy_sub_batches_cfg net a fuel
                      (ArchiveEvents.BATCH_START j) BATCH_END
                      (count_where (in_window (ArchiveEvents.BATCH_START j) BATCH_END)
                         (hot (cfg w))) 0 j
                      (logged (Sql (CountWindow (ArchiveEvents.BATCH_START j) BATCH_END) None) w))
          as Hcfg.
        destruct (ArchiveEvents.copy_sub_batches _ _ _ _ _ _ _ _ _)
          as [[[] j1] w1]; [|discriminate].
        simpl in Hcfg. apply IH. simpl. rewrite Hcfg.
        eapply cleared_after_window.
        -- intros e He. apply Hinv. apply filter_In in He. tauto.
        -- intros e He. apply filter_In in He as [_ He].
           apply negb_true_iff. exact He.
    + intros H; injection H as <- <-. intros e He.
      unfold below. apply Z.ltb_ge. apply Z.ltb_ge in Hlt.
      destruct (Z.lt_ge_cases (event_created_at e) C) as [Hb|Hb]; [|lia].
      specialize (Hinv e He Hb). lia.
Qed.



(** ** Copy failures and tag rows during archival *)

(** C1. With the storage node unreachable the copy of the window fails, and
    the run goes on all the same: it deletes the window from the hot
    partition and ends with its closing report.  The two rows of the window
    are then neither in the hot partition nor on the storage node. *)
Theorem archive_deletes_window_after_failed_copy :
  let '(r, w') := ArchiveEvents.main 10 Deployment.node_down
                    Deployment.archive_node1 Deployment.loaded in
  hot (cfg Deployment.loaded) = [Deployment.e1; Deployment.e2; Deployment.e3]
  /\ stored Deployment.loaded Deployment.node1_addr = []
  /\ r = ArchiveEvents.Done 2 2
  /\ new_commands Deployment.loaded w'
     = [Sql (CountWindow 1100 1600) None;
        Sql (CopyWindow "node1" 1100 1600 2 0) (Some RemoteUnreachable);
        Sql (DeleteWindow 1100 1600) None;
        Sql (CountWindow 1600 2000) None]
  /\ hot (cfg w') = [Deployment.e3]
  /\ stored w' Deployment.node1_addr = [].
Proof. vm_compute. repeat split. Qed.

Lemma tags_after_deletes (removed : list event) (t : list tag_row) (r : tag_row) :
  In r (fold_left (fun t o => process_event_tags TG_DELETE (Some o) None t)
          removed t) ->
  In r t /\ forall o, In o removed -> tag_event_id r <> event_id o.
Proof.
  revert t. induction removed as [|x removed IH]; simpl; intros t H.
  - split; [exact H|tauto].
  - apply IH in H as [H Hrest]. apply filter_In in H as [Hin Hx].
    split; [exact Hin|]. intros o [<-|Ho]; [|auto].
    apply negb_true_iff, String.eqb_neq in Hx. exact Hx.
Qed.

(** The delete statement of a window takes away, through the trigger, every
    tag row of every event it removes from the hot partition. *)
Lemma delete_window_drops_tag_rows (lo hi : Z) (d : coordinator) (e : event) :
  In e (hot d) -> in_window lo hi e = true ->
  forall r, In r (tags (snd (delete_window lo hi d))) ->
            tag_event_id r <> event_id e.
Proof.
  intros He Hw r Hr. simpl in Hr.
  apply tags_after_deletes in Hr as [_ Hr]. apply Hr.
  apply filter_In. split; assumption.
Qed.

(** C2. Event e1 and e2 are written while hot and get their tag rows from
    the trigger; an archive run then moves both to the storage node, and its
    delete statement fires the trigger again, which removes their tag rows:
    after the run [event_tags] holds no row for the archived events. *)
Theorem archive_removes_tag_rows :
  let w' := snd (ArchiveEvents.main 10 Deployment.node_up
                   Deployment.archive_node1 Deployment.loaded) in
  tags (cfg Deployment.loaded)
  = [ {| tag_event_id := "e1"; tag_name := "p"; tag_value := "alice" |};
      {| tag_event_id := "e2"; tag_name := "e"; tag_value := "e1" |} ]
  /\ fst (ArchiveEvents.main 10 Deployment.node_up
            Deployment.archive_node1 Deployment.loaded)
     = ArchiveEvents.Done 2 2
  /\ stored w' Deployment.node1_addr = [Deployment.e1; Deployment.e2]
  /\ hot (cfg w') = [Deployment.e3]
  /\ tags (cfg w') = [].
Proof. vm_compute. repeat split. Qed.

(** ** The archival loop ends *)

Lemma wrap64_small (z : Z) : - 2 ^ 63 <= z < 2 ^ 63 -> wrap64 z = z.
Proof. intros H. unfold wrap64. rewrite Z.mod_small; lia. Qed.

Lemma copy_sub_batches_completes (net : nat -> bool) (a : ArchiveEvents.args)
    (lo hi WINDOW_COUNT : Z) :
  0 < ArchiveEvents.BATCH_SIZE a <= 2 ^ 62 ->
  WINDOW_COUNT <= 2 ^ 62 ->
  forall (fuel : nat) (SUB_OFFSET : Z) (j : ArchiveEvents.job) (w : world),
    0 <= SUB_OFFSET ->
    (Z.to_nat (WINDOW_COUNT - SUB_OFFSET) <= fuel)%nat ->
    fst (fst (ArchiveEvents.copy_sub_batches net a fuel lo hi WINDOW_COUNT
                SUB_OFFSET j w)) = true.
Proof.
  intros Hsize Hwc. induction fuel as [|fuel IH]; intros off j w Hoff Hfuel; simpl.
  - destruct (off <? WINDOW_COUNT) eqn:Hlt; [|reflexivity].
    apply Z.ltb_lt in Hlt. lia.
  - destruct (off <? WINDOW_COUNT) eqn:Hlt; [|reflexivity].
    apply Z.ltb_lt in Hlt.
    rewrite wrap64_small by lia. apply IH; lia.
Qed.

Lemma count_where_le_length (p : event -> bool) (t : list event) :
  count_where p t <= Z.of_nat (length t).
Proof.
  unfold count_where. apply inj_le. induction t as [|x t IH]; simpl; [lia|].
  destruct (p x); simpl; lia.
Qed.

Lemma length_filter_le {A} (p : A -> bool) (l : list A) :
  (length (List.filter p l) <= length l)%nat.
Proof. induction l as [|x l IH]; simpl; [lia|]. destruct (p x); simpl; lia. Qed.

Lemma windows_completes (C : Z) (net : nat -> bool) (a : ArchiveEvents.args) :
  0 < ArchiveEvents.BATCH_WINDOW a <= 2 ^ 62 ->
  0 < ArchiveEvents.BATCH_SIZE a <= 2 ^ 62 ->
  C <= 2 ^ 62 ->
  forall (fuel : nat) (j : ArchiveEvents.job) (w : world),
    - 2 ^ 62 <= ArchiveEvents.BATCH_START j ->
    Z.of_nat (length (hot (cfg w))) <= 2 ^ 62 ->
    (Z.to_nat (C - ArchiveEvents.BATCH_START j) + length (hot (cfg w)) <= fuel)%nat ->
    fst (fst (ArchiveEvents.windows net a C fuel j w)) = true.
Proof.
  intros Hwin Hsize HC.
  induction fuel as [|fuel IH]; intros j w Hbs Hlen Hfuel; simpl.
  - destruct (_ <? C) eqn:Hlt; [|reflexivity]. apply Z.ltb_lt in Hlt. lia.
  - destruct (_ <? C) eqn:Hlt; [|reflexivity]. apply Z.ltb_lt in Hlt.
    rewrite (wrap64_small (ArchiveEvents.BATCH_START j + ArchiveEvents.BATCH_WINDOW a))
      by lia.
    set (BATCH_END := if _ >? C then C else _).
    assert (ArchiveEvents.BATCH_START j < BATCH_END <= C) as Hend.
    { unfold BATCH_END. destruct (_ >? C) eqn:E; [lia|].
      rewrite Z.gtb_ltb in E. apply Z.ltb_ge in E. lia. }
    set (WINDOW_COUNT := count_where _ (hot (cfg w))).
    assert (WINDOW_COUNT <= Z.of_nat (length (hot (cfg w)))) as Hcount
        by apply count_where_le_length.
    destruct (WINDOW_COUNT =? 0).
    + apply IH; simpl; lia.
    + pose proof (copy_sub_batches_completes net a
                    (ArchiveEvents.BATCH_START j) BATCH_END WINDOW_COUNT
                    Hsize ltac:(lia) fuel 0 j
                    (logged (Sql (CountWindow (ArchiveEvents.BATCH_START j) BATCH_END) None) w)
                    ltac:(lia) ltac:(lia)) as Hdone.
      pose proof (copy_sub_batches_cfg net a fuel
                    (ArchiveEvents.BATCH_START j) BATCH_END WINDOW_COUNT 0 j
                    (logged (Sql (CountWindow (ArchiveEvents.BATCH_START j) BATCH_END) None) w))
        as Hcfg.
      destruct (ArchiveEvents.copy_sub_batches _ _ _ _ _ _ _ _ _)
        as [[b j1] w1]. simpl in Hdone, Hcfg. subst b.
      pose proof (length_filter_le
                    (fun e => negb (in_window (ArchiveEvents.BATCH_START j) BATCH_END e))
                    (hot (cfg w))) as Hshrink.
      apply IH; simpl; rewrite ?Hcfg; simpl; lia.
Qed.

(** With positive batch options and timestamps far from the ends of the
    64-bit range, a confirmed run reaches its closing report once it is given
    enough turns. *)
Lemma archive_run_completes (net : nat -> bool) (a : ArchiveEvents.args)
    (w : world) (C : Z) :
  ArchiveEvents.CUTOFF a = Some C ->
  node_name_ok (ArchiveEvents.NODE_NAME a) = true ->
  is_partition (events_archive (ArchiveEvents.NODE_NAME a)) (partitions (cfg w)) = true ->
  ArchiveEvents.DRY_RUN a = false ->
  to_lower (ArchiveEvents.CONFIRM a) = "y" ->
  0 < ArchiveEvents.BATCH_WINDOW a <= 2 ^ 62 ->
  0 < ArchiveEvents.BATCH_SIZE a <= 2 ^ 62 ->
  C <= 2 ^ 62 ->
  (forall e, In e (hot (cfg w)) -> - 2 ^ 62 <= event_created_at e) ->
  Z.of_nat (length (hot (cfg w))) <= 2 ^ 62 ->
  count_where (below C) (hot (cfg w)) <> 0 ->
  exists fuel archived deleted w',
    ArchiveEvents.main fuel net a w = (ArchiveEvents.Done archived deleted, w').
Proof.
  intros HC Hok Hpart Hdry Hconf Hwin Hsize HCmax Hts Hlen Htotal.
  pose proof (node_name_ok_nonempty _ Hok) as Hne. apply String.eqb_neq in Hne.
  unfold ArchiveEvents.main. rewrite HC, Hne, Hok, Hpart, Hdry, Hconf. simpl.
  apply Z.eqb_neq in Htotal. rewrite Htotal.
  destruct (min_created_at (below C) (hot (cfg w))) as [MIN_TS|] eqn:Hmin.
  2:{ exfalso. apply Z.eqb_neq in Htotal. apply Htotal.
      unfold min_created_at in Hmin. unfold count_where.
      destruct (List.filter (below C) (hot (cfg w))); [reflexivity|discriminate]. }
  assert (- 2 ^ 62 <= MIN_TS) as Hmin_lo.
  { unfold min_created_at in Hmin.
    destruct (map event_created_at (List.filter (below C) (hot (cfg w))))
      as [|x xs] eqn:Hm; [discriminate|]. injection Hmin as <-.
    assert (forall y, In y (x :: xs) -> - 2 ^ 62 <= y) as Hall.
    { intros y Hy. rewrite <- Hm in Hy. apply in_map_iff in Hy as (e & <- & He).
      apply filter_In in He as [He _]. apply Hts. exact He. }
    clear Hm. revert x Hall. induction xs as [|z xs IHxs]; simpl; intros x Hall.
    - apply Hall. left. reflexivity.
    - apply IHxs. intros y [<-|Hy].
      + pose proof (Hall x (or_introl eq_refl)).
        pose proof (Hall z (or_intror (or_introl eq_refl))). lia.
      + apply Hall. right. right. exact Hy. }
  set (j0 := {| ArchiveEvents.BATCH_START := MIN_TS; ArchiveEvents.ARCHIVED := 0;
                ArchiveEvents.DELETED := 0; ArchiveEvents.copies := O |}).
  set (fuel := (Z.to_nat (C - MIN_TS) + length (hot (cfg w)))%nat).
  pose proof (windows_completes C net a Hwin Hsize HCmax fuel j0 w Hmin_lo Hlen
                (Nat.le_refl _)) as Hdone.
  exists fuel.
  destruct (ArchiveEvents.windows net a C fuel j0 w) as [[b j1] w1].
  simpl in Hdone. subst b. eauto.
Qed.

(** ** Early exits *)

Ltac case_split :=
  repeat match goal with
         | |- context [match ?x with _ => _ end] => destruct x eqn:?
         | |- context [if ?b then _ else _] => destruct b eqn:?
         end.

Lemma whitelist_update_exit_clean (a : AddStorageNode.args) (w w' : world)
    (h : halt) :
  AddStorageNode.whitelist_update a w = (inr h, w') -> w' = w.
Proof.
  unfold AddStorageNode.whitelist_update.
  destruct (String.eqb _ EmptyString); [discriminate|].
  unfold bind at 1. unfold get.
  destruct (ygg_config w) as [keys|];
    [|intros H; injection H as _ <-; reflexivity].
  destruct (negb (jq_installed w));
    [intros H; injection H as _ <-; reflexivity|].
  destruct (existsb _ keys); [discriminate|].
  run_script. destruct (ygg_nodes w); discriminate.
Qed.

Lemma register_runs_to_end (a : AddStorageNode.args) (w : world) :
  exists w', AddStorageNode.register a w = (inl tt, w').
Proof.
  unfold AddStorageNode.register. run_script.
  destruct (attach_partition _ _ _ _); eexists; reflexivity.
Qed.

(** A script that exits before its last line has changed nothing. *)
Lemma add_storage_node_exit_clean (a : AddStorageNode.args) (w w' : world)
    (h : halt) :
  AddStorageNode.main a w = (inr h, w') -> w' = w.
Proof.
  unfold AddStorageNode.main.
  destruct (_ || _); [intros H; injection H as _ <-; reflexivity|].
  destruct (negb _); [intros H; injection H as _ <-; reflexivity|].
  unfold bind.
  destruct (AddStorageNode.whitelist_update a w) as [[[]|h1] w1] eqn:Hw.
  - destruct (register_runs_to_end a w1) as (w2 & ->). discriminate.
  - intros H; injection H as _ <-.
    eapply whitelist_update_exit_clean. exact Hw.
Qed.

Lemma remove_storage_node_exit_clean (name : string) (w w' : world) (h : halt) :
  RemoveStorageNode.main name w = (inr h, w') -> w' = w.
Proof.
  unfold RemoveStorageNode.main.
  destruct (String.eqb _ _); [intros H; injection H as _ <-; reflexivity|].
  destruct (negb _); [intros H; injection H as _ <-; reflexivity|].
  unfold RemoveStorageNode.whitelist_removal, RemoveStorageNode.detach.
  unfold bind at 1. unfold bind at 1. unfold get.
  destruct (ygg_nodes w) as [nodes|], (ygg_config w) as [keys|];
    try (run_script; destruct (detach_partition _ _); discriminate).
  destruct (negb (jq_installed w));
    [intros H; injection H as _ <-; reflexivity|].
  destruct (nodes !! name) as [k|];
    [destruct (String.eqb k EmptyString)|];
    run_script; destruct (detach_partition _ _); discriminate.
Qed.

Lemma archive_events_exit_clean (fuel : nat) (net : nat -> bool)
    (a : ArchiveEvents.args) (w w' : world) (h : halt) :
  ArchiveEvents.main fuel net a w = (ArchiveEvents.Halted h, w') -> w' = w.
Proof.
  unfold ArchiveEvents.main.
  case_split; intros H; try discriminate; injection H; auto.
Qed.

(** A name that does not pass the check stops each script at once. *)
Lemma rejected_name_stops_scripts (name : string) :
  node_name_ok name = false ->
  (forall w, RemoveStorageNode.main name w
             = (inr (if String.eqb name EmptyString then MissingArgument
                     else InvalidName), w))
  /\ (forall a w, AddStorageNode.NODE_NAME a = name ->
        exists h, AddStorageNode.main a w = (inr h, w))
  /\ (forall fuel net a w, ArchiveEvents.NODE_NAME a = name ->
        exists h, ArchiveEvents.main fuel net a w = (ArchiveEvents.Halted h, w)).
Proof.
  intros Hbad. repeat split.
  - intros w. unfold RemoveStorageNode.main. rewrite Hbad.
    destruct (String.eqb name EmptyString); reflexivity.
  - intros a w <-. unfold AddStorageNode.main. rewrite Hbad. simpl.
    destruct (_ || _); eexists; reflexivity.
  - intros fuel net a w <-. unfold ArchiveEvents.main. rewrite Hbad. simpl.
    destruct (String.eqb _ _); [eexists; reflexivity|].
    destruct (ArchiveEvents.CUTOFF a); eexists; reflexivity.
Qed.

(* ===================================================================== *)
(** * Further properties of the scripts                                   *)
(* ===================================================================== *)

(** ** What every step of an archive run keeps *)

Lemma archive_step_refl (w : world) : archive_step w w.
Proof. unfold archive_step. repeat split; auto. Qed.

Lemma archive_step_trans (w1 w2 w3 : world) :
  archive_step w1 w2 -> archive_step w2 w3 -> archive_step w1 w3.
Proof.
  intros (A1 & A2 & A3 & A4 & A5 & A6 & A7 & A8 & A9)
         (B1 & B2 & B3 & B4 & B5 & B6 & B7 & B8 & B9).
  unfold archive_step. repeat split; try congruence; try lia; auto.
Qed.

Lemma archive_step_logged (c : command) (w : world) : archive_step w (logged c w).
Proof. unfold archive_step. repeat split; auto. Qed.

Lemma has_event_id_insert_mono (r : event) (t : list event) (eid : string) :
  has_event_id eid t = true -> has_event_id eid (insert_events_data r t) = true.
Proof.
  intros H. unfold insert_events_data.
  destruct (has_event_id (event_id r) t) eqn:E; [exact H|].
  rewrite has_event_id_app, H. reflexivity.
Qed.

Lemma has_event_id_insert_all_mono (rows t : list event) (eid : string) :
  has_event_id eid t = true ->
  has_event_id eid (insert_all_events_data rows t) = true.
Proof.
  unfold insert_all_events_data. revert t.
  induction rows as [|r rows IH]; simpl; intros t H; [exact H|].
  apply IH. apply has_event_id_insert_mono. exact H.
Qed.

Lemma has_event_id_insert_all_new (rows t : list event) (e : event) :
  In e rows -> has_event_id (event_id e) (insert_all_events_data rows t) = true.
Proof.
  unfold insert_all_events_data. revert t.
  induction rows as [|r rows IH]; simpl; intros t H; [contradiction|].
  destruct H as [<-|H].
  - apply has_event_id_insert_all_mono. apply has_event_id_after_insert.
  - apply IH. exact H.
Qed.

Lemma has_event_id_in (eid : string) (t : list event) :
  has_event_id eid t = true <-> In eid (event_ids t).
Proof.
  unfold has_event_id, event_ids. rewrite existsb_exists, in_map_iff. split.
  - intros (x & Hx & He). apply String.eqb_eq in He. eauto.
  - intros (x & He & Hx). exists x. split; [exact Hx|]. apply String.eqb_eq. exact He.
Qed.

Lemma insert_events_data_nodup (r : event) (t : list event) :
  NoDup (event_ids t) -> NoDup (event_ids (insert_events_data r t)).
Proof.
  intros H. unfold insert_events_data.
  destruct (has_event_id (event_id r) t) eqn:E; [exact H|].
  unfold event_ids. rewrite List.map_app. simpl.
  apply NoDup_app. split; [exact H|]. split.
  - intros x Hx Hin. apply list_elem_of_singleton in Hin. subst x.
    apply list_elem_of_In in Hx. apply has_event_id_in in Hx. congruence.
  - apply NoDup_singleton.
Qed.

Lemma insert_all_events_data_nodup (rows t : list event) :
  NoDup (event_ids t) -> NoDup (event_ids (insert_all_events_data rows t)).
Proof.
  unfold insert_all_events_data. revert t.
  induction rows as [|r rows IH]; simpl; intros t H; [exact H|].
  apply IH. apply insert_events_data_nodup. exact H.
Qed.

Lemma copy_window_step (node : string) (lo hi limit offset : Z) (up : bool)
    (w w1 : world) :
  ArchiveEvents.copy_window node lo hi limit offset up w = inr w1 ->
  archive_step w w1.
Proof.
  unfold ArchiveEvents.copy_window.
  destruct (negb _); [discriminate|].
  destruct (select_batch lo hi limit offset (hot (cfg w))) as [rows|];
    [|discriminate].
  destruct (servers (cfg w) !! node) as [host|]; [|discriminate].
  destruct (storage w !! host) as [t|] eqn:Ht; [|discriminate].
  destruct up; [|discriminate].
  intros H; injection H as <-.
  unfold archive_step, on_node, stored. simpl. repeat split; auto.
  - intros host' Hs. destruct (decide (host = host')) as [<-|Hne].
    + rewrite lookup_insert_eq. eauto.
    + rewrite lookup_insert_ne by exact Hne. exact Hs.
  - intros host' eid. destruct (decide (host = host')) as [<-|Hne].
    + rewrite lookup_insert_eq, Ht. simpl. apply has_event_id_insert_all_mono.
    + rewrite lookup_insert_ne by exact Hne. auto.
  - intros host'. destruct (decide (host = host')) as [<-|Hne].
    + rewrite lookup_insert_eq, Ht. simpl. apply insert_all_events_data_nodup.
    + rewrite lookup_insert_ne by exact Hne. auto.
Qed.

Lemma delete_window_step (lo hi : Z) (c : command) (w : world) :
  archive_step w (logged c (with_cfg (snd (delete_window lo hi (cfg w))) w)).
Proof.
  unfold archive_step, on_node, stored. simpl. repeat split; auto.
  apply length_filter_le.
Qed.

Lemma copy_sub_batches_step (net : nat -> bool) (a : ArchiveEvents.args)
    (fuel : nat) (lo hi WINDOW_COUNT : Z) :
  forall (SUB_OFFSET : Z) (j : ArchiveEvents.job) (w : world),
    archive_step w
      (snd (ArchiveEvents.copy_sub_batches net a fuel lo hi WINDOW_COUNT
              SUB_OFFSET j w)).
Proof.
  induction fuel as [|fuel IH]; intros off j w; simpl.
  - destruct (off <? WINDOW_COUNT); apply archive_step_refl.
  - destruct (off <? WINDOW_COUNT); [|apply archive_step_refl].
    eapply archive_step_trans; [|apply IH].
    destruct (ArchiveEvents.copy_window _ _ _ _ _ _ w) as [e|w1] eqn:Hc.
    + apply archive_step_logged.
    + eapply archive_step_trans; [eapply copy_window_step; exact Hc|].
      apply archive_step_logged.
Qed.

Lemma windows_step (C : Z) (net : nat -> bool) (a : ArchiveEvents.args)
    (fuel : nat) :
  forall (j : ArchiveEvents.job) (w : world),
    archive_step w (snd (ArchiveEvents.windows net a C fuel j w)).
Proof.
  induction fuel as [|fuel IH]; intros j w; simpl.
  - destruct (_ <? C); apply archive_step_refl.
  - destruct (_ <? C); [|apply archive_step_refl].
    set (BATCH_END := if _ >? C then C else _).
    set (w0 := logged _ w).
    assert (archive_step w w0) as H0 by apply archive_step_logged.
    destruct (_ =? 0).
    + eapply archive_step_trans; [exact H0|apply IH].
    + pose proof (copy_sub_batches_step net a fuel (ArchiveEvents.BATCH_START j)
                    BATCH_END
                    (count_where (in_window (ArchiveEvents.BATCH_START j) BATCH_END)
                       (hot (cfg w))) 0 j w0) as Hcopy.
      destruct (ArchiveEvents.copy_sub_batches _ _ _ _ _ _ _ _ _)
        as [[[] j1] w1]; simpl in Hcopy.
      * eapply archive_step_trans; [|apply IH].
        eapply archive_step_trans; [exact H0|].
        eapply archive_step_trans; [exact Hcopy|].
        apply delete_window_step.
      * simpl. eapply archive_step_trans; [exact H0|exact Hcopy].
Qed.

Lemma main_step (fuel : nat) (net : nat -> bool) (a : ArchiveEvents.args)
    (w : world) :
  archive_step w (snd (ArchiveEvents.main fuel net a w)).
Proof.
  unfold ArchiveEvents.main.
  destruct (String.eqb _ _); [apply archive_step_refl|].
  destruct (ArchiveEvents.CUTOFF a) as [C|]; [|apply archive_step_refl].
  destruct (negb (node_name_ok _)); [apply archive_step_refl|].
  destruct (negb (is_partition _ _)); [apply archive_step_refl|].
  destruct (_ =? 0); [apply archive_step_refl|].
  destruct (min_created_at _ _) as [MIN_TS|]; [|apply archive_step_refl].
  destruct (ArchiveEvents.DRY_RUN a); [apply archive_step_refl|].
  destruct (negb (String.eqb _ _)); [apply archive_step_refl|].
  pose proof (windows_step C net a fuel
                {| ArchiveEvents.BATCH_START := MIN_TS; ArchiveEvents.ARCHIVED := 0;
                   ArchiveEvents.DELETED := 0; ArchiveEvents.copies := O |} w) as H.
  destruct (ArchiveEvents.windows _ _ _ _ _ _) as [[[] j] w']; exact H.
Qed.

(** ** With the storage node up, an archive run loses no row *)

Lemma in_insert_by_created_at_rev (e x : event) (l : list event) :
  x = e \/ In x l -> In x (insert_by_created_at e l).
Proof.
  induction l as [|y l IH]; simpl.
  - intros [->|[]]. left; reflexivity.
  - destruct (event_created_at e <=? event_created_at y); simpl.
    + intros [->|H]; [left; reflexivity|right; exact H].
    + intros [->|[->|H]].
      * right. apply IH. left; reflexivity.
      * left; reflexivity.
      * right. apply IH. right; exact H.
Qed.

Lemma in_order_by_created_at_rev (x : event) (l : list event) :
  In x l -> In x (order_by_created_at l).
Proof.
  induction l as [|y l IH]; simpl; [tauto|].
  intros [->|H]; apply in_insert_by_created_at_rev; [left; reflexivity|].
  right. apply IH. exact H.
Qed.

Lemma length_insert_by_created_at (e : event) (l : list event) :
  length (insert_by_created_at e l) = S (length l).
Proof.
  induction l as [|y l IH]; simpl; [reflexivity|].
  destruct (event_created_at e <=? event_created_at y); simpl; [reflexivity|].
  rewrite IH. reflexivity.
Qed.

Lemma length_order_by_created_at (l : list event) :
  length (order_by_created_at l) = length l.
Proof.
  induction l as [|y l IH]; simpl; [reflexivity|].
  rewrite length_insert_by_created_at, IH. reflexivity.
Qed.

Lemma in_firstn_add {A} (n m : nat) (x : A) (l : list A) :
  In x (firstn (n + m) l) -> In x (firstn n l) \/ In x (firstn m (skipn n l)).
Proof.
  revert l. induction n as [|n IH]; intros l; simpl; [auto|].
  destruct l as [|y l]; simpl.
  - destruct m; simpl; auto.
  - intros [->|H]; [left; left; reflexivity|].
    destruct (IH l H) as [H'|H']; [left; right; exact H'|right; exact H'].
Qed.

(** The copy statement when nothing stands in its way. *)
Lemma copy_window_ready (node host : string) (lo hi limit offset : Z)
    (w : world) (t : list event) :
  node ∈ foreign_tables (cfg w) ->
  servers (cfg w) !! node = Some host ->
  storage w !! host = Some t ->
  0 <= limit -> 0 <= offset ->
  ArchiveEvents.copy_window node lo hi limit offset true w
  = inr (with_storage
           (<[host := insert_all_events_data
                        (firstn (Z.to_nat limit)
                           (skipn (Z.to_nat offset)
                              (order_by_created_at
                                 (List.filter (in_window lo hi) (hot (cfg w))))))
                        t]> (storage w)) w).
Proof.
  intros Hft Hsrv Hst Hl Ho. unfold ArchiveEvents.copy_window, select_batch.
  rewrite (bool_decide_eq_true_2 _ Hft). simpl.
  assert ((limit <? 0) = false) as -> by (apply Z.ltb_ge; lia).
  assert ((offset <? 0) = false) as -> by (apply Z.ltb_ge; lia).
  simpl. rewrite Hsrv, Hst. reflexivity.
Qed.

Lemma copy_path_ready_step (net : nat -> bool) (a : ArchiveEvents.args)
    (host : string) (w w' : world) :
  archive_step w w' -> copy_path_ready net a host w ->
  copy_path_ready net a host w'.
Proof.
  intros (A1 & A2 & _ & _ & _ & _ & A7 & _) (R1 & R2 & R3 & R4).
  unfold copy_path_ready. rewrite A1, A2. auto.
Qed.

Lemma none_lost_step (C : Z) (host : string) (rows : list event) (w w' : world) :
  archive_step w w' -> hot (cfg w') = hot (cfg w) ->
  none_lost C host rows w -> none_lost C host rows w'.
Proof.
  intros (_ & _ & _ & _ & _ & _ & _ & A8 & _) Hhot Hn e He HC.
  rewrite Hhot. destruct (Hn e He HC) as [H|H]; [left; exact H|right].
  apply A8. exact H.
Qed.

(** When the inner loop ends, every hot row of the window has its identifier
    on the storage node. *)
Lemma copy_sub_batches_copies (net : nat -> bool) (a : ArchiveEvents.args)
    (host : string) (lo hi : Z) (hot0 : list event) :
  0 < ArchiveEvents.BATCH_SIZE a <= 2 ^ 62 ->
  Z.of_nat (length hot0) <= 2 ^ 62 ->
  forall (fuel : nat) (SUB_OFFSET : Z) (j j' : ArchiveEvents.job) (w w' : world),
    0 <= SUB_OFFSET ->
    hot (cfg w) = hot0 ->
    copy_path_ready net a host w ->
    (forall e, In e (firstn (Z.to_nat SUB_OFFSET)
                       (order_by_created_at (List.filter (in_window lo hi) hot0))) ->
               on_node w host (event_id e)) ->
    ArchiveEvents.copy_sub_batches net a fuel lo hi
      (count_where (in_window lo hi) hot0) SUB_OFFSET j w = (true, j', w') ->
    forall e, In e hot0 -> in_window lo hi e = true ->
              on_node w' host (event_id e).
Proof.
  intros Hsize Hlen.
  pose proof (count_where_le_length (in_window lo hi) hot0) as Hcount.
  induction fuel as [|fuel IH]; intros off j j' w w' Hoff Hhot Hready Hinv; simpl.
  - destruct (off <? _) eqn:Hlt; [discriminate|].
    intros H; injection H as _ <-. intros e He Hw. apply Hinv.
    apply Z.ltb_ge in Hlt. unfold count_where in Hlt.
    rewrite firstn_all2.
    + apply in_order_by_created_at_rev. apply filter_In. split; assumption.
    + rewrite length_order_by_created_at. lia.
  - destruct (off <? _) eqn:Hlt.
    + apply Z.ltb_lt in Hlt.
      destruct Hready as (Hft & Hsrv & [t Hst] & Hnet).
      rewrite Hnet, (copy_window_ready _ host _ _ _ _ _ t Hft Hsrv Hst)
        by lia.
      rewrite wrap64_small by lia.
      apply IH.
      * lia.
      * simpl. exact Hhot.
      * unfold copy_path_ready. simpl. repeat split; auto.
        rewrite lookup_insert_eq. eauto.
      * intros e He. unfold on_node, stored. simpl.
        rewrite lookup_insert_eq. simpl.
        rewrite Z2Nat.inj_add in He by lia.
        apply in_firstn_add in He as [He|He].
        -- apply has_event_id_insert_all_mono.
           specialize (Hinv e He). unfold on_node, stored in Hinv.
           rewrite Hst in Hinv. exact Hinv.
        -- apply has_event_id_insert_all_new. rewrite Hhot. exact He.
    + intros H; injection H as _ <-. intros e He Hw. apply Hinv.
      apply Z.ltb_ge in Hlt. unfold count_where in Hlt.
      rewrite firstn_all2.
      * apply in_order_by_created_at_rev. apply filter_In. split; assumption.
      * rewrite length_order_by_created_at. lia.
Qed.

Lemma windows_none_lost (C : Z) (net : nat -> bool) (a : ArchiveEvents.args)
    (host : string) (rows : list event) :
  0 < ArchiveEvents.BATCH_SIZE a <= 2 ^ 62 ->
  forall (fuel : nat) (j : ArchiveEvents.job) (w : world),
    Z.of_nat (length (hot (cfg w))) <= 2 ^ 62 ->
    copy_path_ready net a host w ->
    none_lost C host rows w ->
    none_lost C host rows (snd (ArchiveEvents.windows net a C fuel j w)).
Proof.
  intros Hsize.
  induction fuel as [|fuel IH]; intros j w Hlen Hready Hnone; simpl.
  - destruct (_ <? C); exact Hnone.
  - destruct (_ <? C); [|exact Hnone].
    set (BATCH_END := if _ >? C then C else _).
    set (w0 := logged (Sql (CountWindow (ArchiveEvents.BATCH_START j) BATCH_END) None) w).
    assert (copy_path_ready net a host w0) as Hready0 by exact Hready.
    assert (none_lost C host rows w0) as Hnone0 by exact Hnone.
    destruct (_ =? 0).
    + apply IH; assumption.
    + pose proof (copy_sub_batches_step net a fuel (ArchiveEvents.BATCH_START j)
                    BATCH_END
                    (count_where (in_window (ArchiveEvents.BATCH_START j) BATCH_END)
                       (hot (cfg w))) 0 j w0) as Hstep.
      pose proof (copy_sub_batches_cfg net a fuel (ArchiveEvents.BATCH_START j)
                    BATCH_END
                    (count_where (in_window (ArchiveEvents.BATCH_START j) BATCH_END)
                       (hot (cfg w))) 0 j w0) as Hcfg.
      pose proof (copy_sub_batches_copies net a host
                    (ArchiveEvents.BATCH_START j) BATCH_END (hot (cfg w))
                    Hsize Hlen fuel 0 j) as Hcopies.
      destruct (ArchiveEvents.copy_sub_batches _ _ _ _ _ _ _ _ _)
        as [[b j1] w1] eqn:Hrun.
      simpl in Hstep, Hcfg.
      assert (none_lost C host rows w1) as Hnone1.
      { eapply none_lost_step; [exact Hstep| |exact Hnone0].
        rewrite Hcfg. reflexivity. }
      pose proof (copy_path_ready_step net a host w0 w1 Hstep Hready0) as Hready1.
      destruct b; [|exact Hnone1].
      specialize (Hcopies j1 w0 w1 ltac:(lia) eq_refl Hready0
                    ltac:(intros e0 He0; simpl in He0; contradiction) Hrun).
      apply IH.
      * simpl. rewrite Hcfg. simpl.
        pose proof (length_filter_le
                      (fun e => negb (in_window (ArchiveEvents.BATCH_START j) BATCH_END e))
                      (hot (cfg w))). lia.
      * destruct Hready1 as (R1 & R2 & R3 & R4).
        unfold copy_path_ready. simpl. auto.
      * intros e He HC. destruct (Hnone1 e He HC) as [Hin|Hon].
        -- rewrite Hcfg in Hin. simpl in Hin.
           destruct (in_window (ArchiveEvents.BATCH_START j) BATCH_END e) eqn:Hw.
           ++ right. apply (Hcopies e Hin Hw).
           ++ left. simpl. rewrite Hcfg. simpl. apply filter_In.
              split; [exact Hin|]. rewrite Hw. reflexivity.
        -- right. exact Hon.
Qed.

Lemma main_none_lost (C : Z) (fuel : nat) (net : nat -> bool)
    (a : ArchiveEvents.args) (host : string) (rows : list event) (w : world) :
  ArchiveEvents.CUTOFF a = Some C ->
  0 < ArchiveEvents.BATCH_SIZE a <= 2 ^ 62 ->
  Z.of_nat (length (hot (cfg w))) <= 2 ^ 62 ->
  copy_path_ready net a host w ->
  none_lost C host rows w ->
  none_lost C host rows (snd (ArchiveEvents.main fuel net a w)).
Proof.
  intros HC Hsize Hlen Hready Hnone. unfold ArchiveEvents.main. rewrite HC.
  destruct (String.eqb _ _); [exact Hnone|].
  destruct (negb (node_name_ok _)); [exact Hnone|].
  destruct (negb (is_partition _ _)); [exact Hnone|].
  destruct (_ =? 0); [exact Hnone|].
  destruct (min_created_at _ _) as [MIN_TS|]; [|exact Hnone].
  destruct (ArchiveEvents.DRY_RUN a); [exact Hnone|].
  destruct (negb (String.eqb _ _)); [exact Hnone|].
  pose proof (windows_none_lost C net a host rows Hsize fuel
                {| ArchiveEvents.BATCH_START := MIN_TS; ArchiveEvents.ARCHIVED := 0;
                   ArchiveEvents.DELETED := 0; ArchiveEvents.copies := O |} w
                Hlen Hready Hnone) as H.
  destruct (ArchiveEvents.windows _ _ _ _ _ _) as [[[] j] w']; exact H.
Qed.

(** After the closing report no hot row is below the cutoff. *)
Lemma main_done_hot_cleared (C : Z) (fuel : nat) (net : nat -> bool)
    (a : ArchiveEvents.args) (w w' : world) (archived deleted : Z) :
  ArchiveEvents.CUTOFF a = Some C ->
  ArchiveEvents.main fuel net a w = (ArchiveEvents.Done archived deleted, w') ->
  forall e, In e (hot (cfg w')) -> C <= event_created_at e.
Proof.
  intros HC. unfold ArchiveEvents.main. rewrite HC.
  destruct (String.eqb _ _); [discriminate|].
  destruct (negb (node_name_ok _)); [discriminate|].
  destruct (negb (is_partition _ _)); [discriminate|].
  destruct (_ =? 0); [discriminate|].
  destruct (min_created_at _ _) as [MIN_TS|] eqn:Hmin; [|discriminate].
  destruct (ArchiveEvents.DRY_RUN a); [discriminate|].
  destruct (negb (String.eqb _ _)); [discriminate|].
  destruct (ArchiveEvents.windows _ _ _ _ _ w) as [[[] j1] w1] eqn:Hw;
    [|discriminate].
  intros H; injection H as _ _ <-. intros e He.
  assert (below C e = false) as Hb.
  { eapply windows_done; [|exact Hw|exact He]. simpl.
    intros x Hx Hlt. eapply min_created_at_le; [exact Hmin|exact Hx|].
    unfold below. apply Z.ltb_lt. exact Hlt. }
  unfold below in Hb. apply Z.ltb_ge in Hb. exact Hb.
Qed.

Lemma none_lost_initially (C : Z) (host : string) (w : world) :
  none_lost C host (hot (cfg w)) w.
Proof. intros e He _. left. exact He. Qed.




Lemma deployment_copy_path_ready :
  copy_path_ready Deployment.node_up Deployment.archive_node1
    Deployment.node1_addr Deployment.loaded.
Proof.
  unfold copy_path_ready. split; [|split; [|split]].
  - apply (bool_decide_unpack _). vm_compute. exact I.
  - vm_compute. reflexivity.
  - eexists. vm_compute. reflexivity.
  - reflexivity.
Defined.



Lemma scenario_copy_path_ready :
  copy_path_ready Deployment.node_up Scenario.archive_by_one
    Deployment.node1_addr Deployment.loaded.
Proof.
  unfold copy_path_ready. split; [|split; [|split]].
  - apply (bool_decide_unpack _). vm_compute. exact I.
  - vm_compute. reflexivity.
  - eexists. vm_compute. reflexivity.
  - reflexivity.
Defined.


(** ** The two counters of the closing report *)

Lemma length_filter_split {A} (p : A -> bool) (l : list A) :
  (length (List.filter p l) + length (List.filter (fun x => negb (p x)) l)
   = length l)%nat.
Proof.
  induction l as [|x l IH]; simpl; [reflexivity|].
  destruct (p x); simpl; lia.
Qed.

(** The inner loop leaves [DELETED] alone and raises [ARCHIVED] by the last
    offset it reached: at least the rows of the window, less than that plus
    one batch. *)
Lemma copy_sub_batches_counters (net : nat -> bool) (a : ArchiveEvents.args)
    (lo hi WINDOW_COUNT : Z) :
  0 < ArchiveEvents.BATCH_SIZE a ->
  forall (fuel : nat) (SUB_OFFSET : Z) (j j' : ArchiveEvents.job) (w w' : world),
    0 <= SUB_OFFSET < WINDOW_COUNT ->
    0 <= ArchiveEvents.ARCHIVED j ->
    ArchiveEvents.ARCHIVED j + (WINDOW_COUNT - SUB_OFFSET)
      + ArchiveEvents.BATCH_SIZE a <= 2 ^ 62 ->
    WINDOW_COUNT + ArchiveEvents.BATCH_SIZE a <= 2 ^ 62 ->
    ArchiveEvents.copy_sub_batches net a fuel lo hi WINDOW_COUNT SUB_OFFSET j w
    = (true, j', w') ->
    ArchiveEvents.DELETED j' = ArchiveEvents.DELETED j
    /\ WINDOW_COUNT - SUB_OFFSET
         <= ArchiveEvents.ARCHIVED j' - ArchiveEvents.ARCHIVED j
         < WINDOW_COUNT - SUB_OFFSET + ArchiveEvents.BATCH_SIZE a.
Proof.
  intros Hsize.
  induction fuel as [|fuel IH]; intros off j j' w w' Hoff Harch Hroom Hwc; simpl.
  - assert ((off <? WINDOW_COUNT) = true) as -> by (apply Z.ltb_lt; lia).
    discriminate.
  - assert ((off <? WINDOW_COUNT) = true) as -> by (apply Z.ltb_lt; lia).
    rewrite (wrap64_small (off + ArchiveEvents.BATCH_SIZE a)) by lia.
    rewrite (wrap64_small (ArchiveEvents.ARCHIVED j + ArchiveEvents.BATCH_SIZE a))
      by lia.
    destruct (Z.lt_ge_cases (off + ArchiveEvents.BATCH_SIZE a) WINDOW_COUNT)
      as [Hmore|Hlast].
    + intros Hrun. apply IH in Hrun; simpl in *; lia.
    + destruct fuel as [|fuel]; simpl;
        (assert ((off + ArchiveEvents.BATCH_SIZE a <? WINDOW_COUNT) = false) as ->
            by (apply Z.ltb_ge; lia));
        intros H; injection H as <- _; simpl; lia.
Qed.

Lemma windows_counters (C : Z) (net : nat -> bool) (a : ArchiveEvents.args)
    (total : Z) :
  0 < ArchiveEvents.BATCH_SIZE a <= 2 ^ 30 ->
  total <= 2 ^ 30 ->
  forall (fuel : nat) (j j' : ArchiveEvents.job) (w w' : world),
    0 <= ArchiveEvents.DELETED j ->
    ArchiveEvents.DELETED j + Z.of_nat (length (hot (cfg w))) = total ->
    ArchiveEvents.DELETED j <= ArchiveEvents.ARCHIVED j
      <= (ArchiveEvents.BATCH_SIZE a + 1) * ArchiveEvents.DELETED j ->
    ArchiveEvents.windows net a C fuel j w = (true, j', w') ->
    ArchiveEvents.DELETED j' + Z.of_nat (length (hot (cfg w'))) = total
    /\ ArchiveEvents.DELETED j' <= ArchiveEvents.ARCHIVED j'
         <= (ArchiveEvents.BATCH_SIZE a + 1) * ArchiveEvents.DELETED j'.
Proof.
  intros Hsize Htotal.
  induction fuel as [|fuel IH]; intros j j' w w' Hdel Hsum Harch; simpl.
  - destruct (_ <? C); [discriminate|].
    intros H; injection H as <- <-. split; assumption.
  - destruct (_ <? C); [|intros H; injection H as <- <-; split; assumption].
    set (BATCH_END := if _ >? C then C else _).
    set (WINDOW_COUNT := count_where _ (hot (cfg w))).
    set (w0 := logged _ w).
    pose proof (count_where_le_length
                  (in_window (ArchiveEvents.BATCH_START j) BATCH_END) (hot (cfg w)))
      as Hcount. fold WINDOW_COUNT in Hcount.
    assert (0 <= WINDOW_COUNT) as Hpos by (unfold WINDOW_COUNT, count_where; lia).
    destruct (WINDOW_COUNT =? 0) eqn:Hz.
    + apply IH; simpl; assumption.
    + apply Z.eqb_neq in Hz.
      pose proof (copy_sub_batches_cfg net a fuel (ArchiveEvents.BATCH_START j)
                    BATCH_END WINDOW_COUNT 0 j w0) as Hcfg.
      pose proof (copy_sub_batches_counters net a (ArchiveEvents.BATCH_START j)
                    BATCH_END WINDOW_COUNT ltac:(lia) fuel 0 j) as Hctr.
      destruct (ArchiveEvents.copy_sub_batches _ _ _ _ _ _ _ _ _)
        as [[b j1] w1] eqn:Hrun.
      destruct b; [|discriminate]. simpl in Hcfg.
      assert ((ArchiveEvents.BATCH_SIZE a + 1) * ArchiveEvents.DELETED j
              <= (2 ^ 30 + 1) * 2 ^ 30) as Hbig.
      { apply Z.mul_le_mono_nonneg; lia. }
      assert (ArchiveEvents.ARCHIVED j + (WINDOW_COUNT - 0)
              + ArchiveEvents.BATCH_SIZE a <= 2 ^ 62) as Hroom by lia.
      destruct (Hctr j1 w0 w1 ltac:(lia) ltac:(lia) Hroom ltac:(lia) Hrun)
        as (Hd1 & Ha1).
      pose proof (length_filter_split
                    (in_window (ArchiveEvents.BATCH_START j) BATCH_END)
                    (hot (cfg w))) as Hsplit.
      assert (Z.of_nat (length (List.filter
                                  (in_window (ArchiveEvents.BATCH_START j) BATCH_END)
                                  (hot (cfg w)))) = WINDOW_COUNT) as Hwc
          by reflexivity.
      apply IH; simpl; rewrite ?Hcfg; simpl.
      * rewrite wrap64_small by lia. lia.
      * rewrite wrap64_small by lia. lia.
      * rewrite wrap64_small by lia. nia.
Qed.

(** X4. In the closing report of a run, the deleted count is the number of
    rows that left the hot partition, whatever the storage node did; the
    copied count adds up batch sizes, so it is at least the deleted count and
    at most [BATCH_SIZE + 1] times it. *)
Theorem archive_report_counters
    (fuel : nat) (net : nat -> bool) (a : ArchiveEvents.args) (w w' : world)
    (archived deleted : Z) :
  0 < ArchiveEvents.BATCH_SIZE a <= 2 ^ 30 ->
  Z.of_nat (length (hot (cfg w))) <= 2 ^ 30 ->
  ArchiveEvents.main fuel net a w = (ArchiveEvents.Done archived deleted, w') ->
  deleted = Z.of_nat (length (hot (cfg w))) - Z.of_nat (length (hot (cfg w')))
  /\ deleted <= archived <= (ArchiveEvents.BATCH_SIZE a + 1) * deleted.
Proof.
  intros Hsize Hlen. unfold ArchiveEvents.main.
  destruct (String.eqb _ _); [discriminate|].
  destruct (ArchiveEvents.CUTOFF a) as [C|]; [|discriminate].
  destruct (negb (node_name_ok _)); [discriminate|].
  destruct (negb (is_partition _ _)); [discriminate|].
  destruct (_ =? 0); [discriminate|].
  destruct (min_created_at _ _) as [MIN_TS|]; [|discriminate].
  destruct (ArchiveEvents.DRY_RUN a); [discriminate|].
  destruct (negb (String.eqb _ _)); [discriminate|].
  set (j0 := {| ArchiveEvents.BATCH_START := MIN_TS; ArchiveEvents.ARCHIVED := 0;
                ArchiveEvents.DELETED := 0; ArchiveEvents.copies := O |}).
  destruct (ArchiveEvents.windows _ _ _ _ j0 w) as [[[] j1] w1] eqn:Hw;
    [|discriminate].
  intros H; injection H as <- <- <-.
  assert (0 <= ArchiveEvents.DELETED j0) as H1 by (simpl; lia).
  assert (ArchiveEvents.DELETED j0 + Z.of_nat (length (hot (cfg w)))
          = Z.of_nat (length (hot (cfg w)))) as H2 by (simpl; lia).
  assert (ArchiveEvents.DELETED j0 <= ArchiveEvents.ARCHIVED j0
          <= (ArchiveEvents.BATCH_SIZE a + 1) * ArchiveEvents.DELETED j0) as H3
      by (simpl; lia).
  destruct (windows_counters C net a (Z.of_nat (length (hot (cfg w))))
              Hsize Hlen fuel j0 j1 w w1 H1 H2 H3 Hw) as (Hsum & Harch).
  split; [lia|exact Harch].
Qed.

Lemma archive_report_counters_witness :
  fst (ArchiveEvents.main 10 Deployment.node_up Scenario.archive_three
         Deployment.loaded) = ArchiveEvents.Done 4 3
  /\ (3 = Z.of_nat (length (hot (cfg Deployment.loaded)))
          - Z.of_nat (length (hot (cfg (snd (ArchiveEvents.main 10
                  Deployment.node_up Scenario.archive_three Deployment.loaded)))))
      /\ 3 <= 4 <= (2 + 1) * 3).
Proof.
  split; [vm_compute; reflexivity|].
  apply (archive_report_counters 10 Deployment.node_up Scenario.archive_three
           Deployment.loaded _ 4 3).
  - simpl. lia.
  - vm_compute. discriminate.
  - vm_compute. reflexivity.
Defined.




(** ** What add-storage-node.sh and remove-storage-node.sh do to the world *)

Lemma whitelist_update_effect (a : AddStorageNode.args) (w w1 : world) :
  AddStorageNode.whitelist_update a w = (inl tt, w1) ->
  cfg w1 = cfg w /\ storage w1 = storage w /\ jq_installed w1 = jq_installed w
  /\ ((ygg_config w1 = ygg_config w /\ ygg_nodes w1 = ygg_nodes w
       /\ (AddStorageNode.STORAGE_PUBKEY a = EmptyString
           \/ exists keys, ygg_config w = Some keys
                           /\ In (AddStorageNode.STORAGE_PUBKEY a) keys))
      \/ (exists keys,
            ygg_config w = Some keys
            /\ AddStorageNode.STORAGE_PUBKEY a <> EmptyString
            /\ ~ In (AddStorageNode.STORAGE_PUBKEY a) keys
            /\ ygg_config w1 = Some (keys ++ [AddStorageNode.STORAGE_PUBKEY a])
            /\ ygg_nodes w1
               = (insert (AddStorageNode.NODE_NAME a)
                    (AddStorageNode.STORAGE_PUBKEY a) <$> ygg_nodes w))).
Proof.
  unfold AddStorageNode.whitelist_update.
  destruct (String.eqb_spec (AddStorageNode.STORAGE_PUBKEY a) EmptyString) as [He|He].
  - intros H; injection H as <-. repeat split. left. auto.
  - unfold bind at 1. unfold get.
    destruct (ygg_config w) as [keys|] eqn:Hc; [|discriminate].
    destruct (negb (jq_installed w)); [discriminate|].
    destruct (existsb (String.eqb (AddStorageNode.STORAGE_PUBKEY a)) keys) eqn:Hex.
    + intros H; injection H as <-. repeat split. left. repeat split; auto.
      right. exists keys. split; [reflexivity|].
      apply existsb_exists in Hex as (x & Hx & Hxe).
      apply String.eqb_eq in Hxe. subst x. exact Hx.
    + assert (~ In (AddStorageNode.STORAGE_PUBKEY a) keys) as Hnin.
      { intros Hin. rewrite (existsb_eqb_in _ _ Hin) in Hex. discriminate. }
      run_script. destruct (ygg_nodes w) as [nodes|] eqn:Hn; simpl;
        intros H; injection H as <-; simpl; repeat split;
        right; exists keys; repeat split; auto.
Qed.

Lemma register_effect (a : AddStorageNode.args) (w : world) :
  exists w',
    AddStorageNode.register a w = (inl tt, w')
    /\ cfg w' = registered_cfg a (cfg w)
    /\ storage w' = storage w /\ ygg_config w' = ygg_config w
    /\ ygg_nodes w' = ygg_nodes w /\ jq_installed w' = jq_installed w.
Proof.
  unfold AddStorageNode.register, registered_cfg. run_script.
  destruct (attach_partition _ _ _ _); eexists; split; try reflexivity;
    simpl; repeat split.
Qed.

Lemma whitelist_removal_effect (name : string) (w w1 : world) :
  RemoveStorageNode.whitelist_removal name w = (inl tt, w1) ->
  cfg w1 = cfg w /\ storage w1 = storage w /\ jq_installed w1 = jq_installed w
  /\ ((ygg_config w1 = ygg_config w /\ ygg_nodes w1 = ygg_nodes w
       /\ (ygg_nodes w = None \/ ygg_config w = None
           \/ exists nodes, ygg_nodes w = Some nodes
                            /\ (nodes !! name = None
                                \/ nodes !! name = Some EmptyString)))
      \/ (exists nodes keys k,
            ygg_nodes w = Some nodes /\ ygg_config w = Some keys
            /\ nodes !! name = Some k /\ k <> EmptyString
            /\ ygg_config w1 = Some (RemoveStorageNode.without_key k keys)
            /\ ygg_nodes w1 = Some (delete name nodes))).
Proof.
  unfold RemoveStorageNode.whitelist_removal. unfold bind at 1. unfold get.
  destruct (ygg_nodes w) as [nodes|] eqn:Hn.
  2:{ intros H; injection H as <-. repeat split. left. auto. }
  destruct (ygg_config w) as [keys|] eqn:Hc.
  2:{ intros H; injection H as <-. repeat split. left. auto. }
  destruct (negb (jq_installed w)); [discriminate|].
  destruct (nodes !! name) as [k|] eqn:Hk.
  2:{ intros H; injection H as <-. repeat split. left. repeat split; auto.
      right. right. exists nodes. auto. }
  destruct (String.eqb_spec k EmptyString) as [->|Hne].
  { intros H; injection H as <-. repeat split. left. repeat split; auto.
    right. right. exists nodes. auto. }
  run_script. intros H; injection H as <-. simpl. repeat split.
  right. exists nodes, keys, k. repeat split; auto.
Qed.

Lemma detach_effect (name : string) (w : world) :
  exists w',
    RemoveStorageNode.detach name w = (inl tt, w')
    /\ cfg w' = removed_cfg name (cfg w)
    /\ storage w' = storage w /\ ygg_config w' = ygg_config w
    /\ ygg_nodes w' = ygg_nodes w /\ jq_installed w' = jq_installed w.
Proof.
  unfold RemoveStorageNode.detach, removed_cfg. run_script.
  destruct (detach_partition _ _); eexists; split; try reflexivity;
    simpl; repeat split.
Qed.

Lemma add_main_cases (a : AddStorageNode.args) (w : world) :
  (exists h, AddStorageNode.main a w = (inr h, w))
  \/ (exists w1 w',
        AddStorageNode.whitelist_update a w = (inl tt, w1)
        /\ AddStorageNode.main a w = (inl tt, w')
        /\ node_name_ok (AddStorageNode.NODE_NAME a) = true
        /\ cfg w' = registered_cfg a (cfg w)
        /\ storage w' = storage w
        /\ ygg_config w' = ygg_config w1 /\ ygg_nodes w' = ygg_nodes w1
        /\ jq_installed w' = jq_installed w).
Proof.
  unfold AddStorageNode.main.
  destruct (_ || _); [left; eexists; reflexivity|].
  destruct (node_name_ok _) eqn:Hok; simpl; [|left; eexists; reflexivity].
  unfold bind.
  destruct (AddStorageNode.whitelist_update a w) as [[[]|h] w1] eqn:Hw.
  - right. destruct (whitelist_update_effect a w w1 Hw) as (Hc & Hs & Hj & _).
    destruct (register_effect a w1) as (w' & -> & H1 & H2 & H3 & H4 & H5).
    exists w1, w'. repeat split; congruence.
  - left. rewrite (whitelist_update_exit_clean a w w1 h Hw). eexists; reflexivity.
Qed.

Lemma remove_main_cases (name : string) (w : world) :
  (exists h, RemoveStorageNode.main name w = (inr h, w))
  \/ (exists w1 w',
        RemoveStorageNode.whitelist_removal name w = (inl tt, w1)
        /\ RemoveStorageNode.main name w = (inl tt, w')
        /\ node_name_ok name = true
        /\ cfg w' = removed_cfg name (cfg w)
        /\ storage w' = storage w
        /\ ygg_config w' = ygg_config w1 /\ ygg_nodes w' = ygg_nodes w1
        /\ jq_installed w' = jq_installed w).
Proof.
  destruct (RemoveStorageNode.main name w) as [[[]|h] w'] eqn:Hm.
  - right. revert Hm. unfold RemoveStorageNode.main.
    destruct (String.eqb _ _); [discriminate|].
    destruct (node_name_ok name) eqn:Hok; simpl; [|discriminate].
    unfold bind.
    destruct (RemoveStorageNode.whitelist_removal name w) as [[[]|h] w1] eqn:Hw;
      [|discriminate].
    destruct (whitelist_removal_effect name w w1 Hw) as (Hc & Hs & Hj & _).
    destruct (detach_effect name w1) as (w2 & -> & H1 & H2 & H3 & H4 & H5).
    intros H; injection H as <-.
    exists w1, w2. repeat split; congruence.
  - left. rewrite (remove_storage_node_exit_clean name w w' h Hm).
    eexists; reflexivity.
Qed.

Lemma attach_partition_inr (n : string) (from to : bound) (d d' : coordinator) :
  attach_partition n from to d = inr d' ->
  d' = with_partitions
         (partitions d ++ [ {| relname := events_archive n; part_from := from;
                               part_to := to |} ]) d
  /\ is_partition (events_archive n) (partitions d) = false
  /\ bound_lt from to = true
  /\ existsb (fun p => ranges_overlap from to (part_from p) (part_to p))
       (partitions d) = false.
Proof.
  unfold attach_partition.
  destruct (negb _); [discriminate|].
  destruct (is_partition _ _); [discriminate|].
  destruct (bound_lt from to); [|discriminate]. simpl.
  destruct (existsb _ _); [discriminate|].
  intros H; injection H as <-. auto.
Qed.

Lemma node_objects_fields (n host pw : string) (d : coordinator) :
  let d3 := create_foreign_table n (create_user_mapping n pw (create_server n host d)) in
  hot d3 = hot d /\ tags d3 = tags d /\ partitions d3 = partitions d
  /\ foreign_tables d3 = {[ n ]} ∪ foreign_tables d
  /\ servers d3 = match servers d !! n with
                  | Some _ => servers d
                  | None => <[n := host]> (servers d)
                  end
  /\ user_mappings d3 = match user_mappings d !! n with
                        | Some _ => user_mappings d
                        | None => <[n := pw]> (user_mappings d)
                        end.
Proof.
  unfold create_foreign_table, create_user_mapping, create_server. simpl.
  destruct (servers d !! n); simpl; destruct (user_mappings d !! n); simpl;
    repeat split.
Qed.

Lemma registered_cfg_rows (a : AddStorageNode.args) (d : coordinator) :
  hot (registered_cfg a d) = hot d /\ tags (registered_cfg a d) = tags d.
Proof.
  unfold registered_cfg.
  destruct (node_objects_fields (AddStorageNode.NODE_NAME a)
              (AddStorageNode.YGG_ADDR a) (AddStorageNode.DB_PASSWORD a) d)
    as (Hh & Ht & _).
  destruct (attach_partition _ _ _ _) as [e|d4] eqn:Hat.
  - split; assumption.
  - apply attach_partition_inr in Hat as (-> & _). simpl. split; assumption.
Qed.

Lemma removed_cfg_rows (name : string) (d : coordinator) :
  hot (removed_cfg name d) = hot d /\ tags (removed_cfg name d) = tags d.
Proof.
  unfold removed_cfg, detach_partition. destruct (is_partition _ _); simpl; auto.
Qed.


(** ** The partition layout under the topology scripts *)

Lemma registered_cfg_partitions (a : AddStorageNode.args) (d : coordinator) :
  partitions (registered_cfg a d) = partitions d
  \/ (partitions (registered_cfg a d) = partitions d ++ [node_partition a]
      /\ is_partition (events_archive (AddStorageNode.NODE_NAME a)) (partitions d) = false
      /\ bound_lt (AddStorageNode.FROM_TS a) (AddStorageNode.TO_TS a) = true
      /\ existsb (fun p => ranges_overlap (AddStorageNode.FROM_TS a)
                             (AddStorageNode.TO_TS a) (part_from p) (part_to p))
           (partitions d) = false).
Proof.
  unfold registered_cfg.
  destruct (node_objects_fields (AddStorageNode.NODE_NAME a)
              (AddStorageNode.YGG_ADDR a) (AddStorageNode.DB_PASSWORD a) d)
    as (_ & _ & Hp & _).
  destruct (attach_partition _ _ _ _) as [e|d4] eqn:Hat.
  - left. exact Hp.
  - right. apply attach_partition_inr in Hat as (-> & H1 & H2 & H3).
    rewrite Hp in H1, H3. split; [|auto].
    unfold with_partitions, node_partition. cbn [partitions]. rewrite Hp.
    reflexivity.
Qed.

Lemma filter_twice {A} (p : A -> bool) (l : list A) :
  List.filter p (List.filter p l) = List.filter p l.
Proof. apply filter_filter_absorb. auto. Qed.

Lemma removed_cfg_partitions (name : string) (d : coordinator) :
  partitions (removed_cfg name d)
  = List.filter (fun p => negb (relation_eqb (relname p) (events_archive name)))
      (partitions d).
Proof.
  unfold removed_cfg, detach_partition.
  destruct (is_partition _ _); simpl; [apply filter_twice|reflexivity].
Qed.

Lemma disjoint_ranges_snoc (ps : list partition) (p : partition) :
  disjoint_ranges ps = true ->
  bound_lt (part_from p) (part_to p) = true ->
  existsb (fun x => ranges_overlap (part_from p) (part_to p)
                      (part_from x) (part_to x)) ps = false ->
  disjoint_ranges (ps ++ [p]) = true.
Proof.
  intros Hd Hne. induction ps as [|x r IH]; simpl; intros Hov.
  - rewrite Hne. reflexivity.
  - apply orb_false_iff in Hov as [Hx Hr].
    apply andb_true_iff in Hd as [Hd Hdr]. apply andb_true_iff in Hd as [Hxne Hall].
    rewrite Hxne, forallb_app, Hall. simpl.
    rewrite ranges_overlap_sym, Hx. simpl. apply IH; assumption.
Qed.

Lemma disjoint_ranges_filter (q : partition -> bool) (ps : list partition) :
  disjoint_ranges ps = true -> disjoint_ranges (List.filter q ps) = true.
Proof.
  induction ps as [|x r IH]; simpl; [auto|]. intros Hd.
  apply andb_true_iff in Hd as [Hd Hdr]. apply andb_true_iff in Hd as [Hxne Hall].
  destruct (q x); simpl; [|apply IH; exact Hdr].
  rewrite Hxne, (IH Hdr), andb_true_r. simpl.
  apply forallb_forall. intros y Hy. apply filter_In in Hy as [Hy _].
  rewrite forallb_forall in Hall. apply Hall. exact Hy.
Qed.



(** ** Registering a node *)

Lemma attach_partition_free (n : string) (from to : bound) (d : coordinator) :
  n ∈ foreign_tables d ->
  is_partition (events_archive n) (partitions d) = false ->
  bound_lt from to = true ->
  existsb (fun p => ranges_overlap from to (part_from p) (part_to p))
    (partitions d) = false ->
  attach_partition n from to d
  = inr (with_partitions
           (partitions d ++ [ {| relname := events_archive n; part_from := from;
                                 part_to := to |} ]) d).
Proof.
  intros Hin Hp Hne Hov. unfold attach_partition.
  rewrite (bool_decide_eq_true_2 _ Hin), Hp, Hne, Hov. reflexivity.
Qed.

Lemma registered_cfg_attached (a : AddStorageNode.args) (d : coordinator) :
  is_partition (events_archive (AddStorageNode.NODE_NAME a)) (partitions d) = false ->
  bound_lt (AddStorageNode.FROM_TS a) (AddStorageNode.TO_TS a) = true ->
  existsb (fun p => ranges_overlap (AddStorageNode.FROM_TS a) (AddStorageNode.TO_TS a)
                      (part_from p) (part_to p)) (partitions d) = false ->
  partitions (registered_cfg a d) = partitions d ++ [node_partition a].
Proof.
  intros Hp Hne Hov. unfold registered_cfg.
  destruct (node_objects_fields (AddStorageNode.NODE_NAME a)
              (AddStorageNode.YGG_ADDR a) (AddStorageNode.DB_PASSWORD a) d)
    as (_ & _ & Hparts & Hft & _).
  rewrite attach_partition_free.
  - unfold with_partitions, node_partition. cbn [partitions]. rewrite Hparts.
    reflexivity.
  - rewrite Hft. apply elem_of_union. left. apply elem_of_singleton. reflexivity.
  - rewrite Hparts. exact Hp.
  - exact Hne.
  - rewrite Hparts. exact Hov.
Qed.

Lemma registered_cfg_catalog (a : AddStorageNode.args) (d : coordinator) :
  foreign_tables (registered_cfg a d)
  = {[ AddStorageNode.NODE_NAME a ]} ∪ foreign_tables d
  /\ servers (registered_cfg a d)
     = match servers d !! AddStorageNode.NODE_NAME a with
       | Some _ => servers d
       | None => <[AddStorageNode.NODE_NAME a := AddStorageNode.YGG_ADDR a]> (servers d)
       end
  /\ user_mappings (registered_cfg a d)
     = match user_mappings d !! AddStorageNode.NODE_NAME a with
       | Some _ => user_mappings d
       | None => <[AddStorageNode.NODE_NAME a := AddStorageNode.DB_PASSWORD a]>
                   (user_mappings d)
       end.
Proof.
  unfold registered_cfg.
  destruct (node_objects_fields (AddStorageNode.NODE_NAME a)
              (AddStorageNode.YGG_ADDR a) (AddStorageNode.DB_PASSWORD a) d)
    as (_ & _ & _ & Hft & Hsrv & Hum).
  destruct (attach_partition _ _ _ _) as [e|d4] eqn:Hat.
  - auto.
  - apply attach_partition_inr in Hat as (-> & _). cbn [with_partitions
      foreign_tables servers user_mappings]. auto.
Qed.

(** The first part of the script does not stop a well-formed call when the
    key is not given, or when the configuration file and jq are there. *)
Lemma whitelist_update_runs (a : AddStorageNode.args) (w : world) :
  AddStorageNode.STORAGE_PUBKEY a = EmptyString
  \/ (ygg_config w <> None /\ jq_installed w = true) ->
  exists w1, AddStorageNode.whitelist_update a w = (inl tt, w1).
Proof.
  intros Hkey. unfold AddStorageNode.whitelist_update.
  destruct (String.eqb_spec (AddStorageNode.STORAGE_PUBKEY a) EmptyString) as [He|He].
  - eexists. reflexivity.
  - destruct Hkey as [Hk|[Hc Hj]]; [contradiction|].
    unfold bind at 1. unfold get.
    destruct (ygg_config w) as [keys|]; [|congruence]. rewrite Hj. simpl.
    destruct (existsb _ keys); [eexists; reflexivity|].
    run_script. destruct (ygg_nodes w); eexists; reflexivity.
Qed.

Lemma add_main_runs (a : AddStorageNode.args) (w : world) :
  AddStorageNode.YGG_ADDR a <> EmptyString ->
  AddStorageNode.DB_PASSWORD a <> EmptyString ->
  node_name_ok (AddStorageNode.NODE_NAME a) = true ->
  AddStorageNode.STORAGE_PUBKEY a = EmptyString
  \/ (ygg_config w <> None /\ jq_installed w = true) ->
  exists w', AddStorageNode.main a w = (inl tt, w').
Proof.
  intros Ha Hpw Hok Hkey.
  pose proof (node_name_ok_nonempty _ Hok) as Hn.
  apply String.eqb_neq in Ha, Hpw, Hn.
  unfold AddStorageNode.main. rewrite Ha, Hpw, Hn, Hok. simpl. unfold bind.
  destruct (whitelist_update_runs a w Hkey) as (w1 & ->).
  destruct (register_effect a w1) as (w' & -> & _). eauto.
Qed.



(** ** Adding a node and removing it again *)

Lemma coordinator_ext (d d' : coordinator) :
  hot d' = hot d -> tags d' = tags d -> servers d' = servers d ->
  user_mappings d' = user_mappings d -> foreign_tables d' = foreign_tables d ->
  partitions d' = partitions d -> d' = d.
Proof. destruct d, d'. simpl. intros; subst; reflexivity. Qed.

Lemma removed_cfg_catalog (name : string) (d : coordinator) :
  servers (removed_cfg name d) = delete name (servers d)
  /\ user_mappings (removed_cfg name d) = delete name (user_mappings d)
  /\ foreign_tables (removed_cfg name d) = foreign_tables d ∖ {[ name ]}.
Proof.
  unfold removed_cfg, detach_partition. destruct (is_partition _ _); simpl; auto.
Qed.

Lemma filter_keeps_unnamed (r : relation) (ps : list partition) :
  is_partition r ps = false ->
  List.filter (fun p => negb (relation_eqb (relname p) r)) ps = ps.
Proof.
  induction ps as [|x ps IH]; simpl; [reflexivity|].
  intros H. apply orb_false_iff in H as [Hx Hps].
  rewrite Hx. simpl. rewrite (IH Hps). reflexivity.
Qed.

Lemma relation_eqb_refl (r : relation) : relation_eqb r r = true.
Proof. destruct r; simpl; [reflexivity|apply String.eqb_refl]. Qed.

Lemma without_key_appended (k : string) (keys : list string) :
  ~ In k keys -> RemoveStorageNode.without_key k (keys ++ [k]) = keys.
Proof.
  intros Hnin. unfold RemoveStorageNode.without_key.
  rewrite List.filter_app. simpl. rewrite String.eqb_refl. simpl.
  rewrite app_nil_r.
  induction keys as [|x keys IH]; simpl; [reflexivity|].
  assert (String.eqb x k = false) as ->.
  { apply String.eqb_neq. intros ->. apply Hnin. left. reflexivity. }
  simpl. rewrite IH; [reflexivity|]. intros H. apply Hnin. right. exact H.
Qed.

Lemma removed_cfg_unknown (name : string) (d : coordinator) :
  servers d !! name = None -> user_mappings d !! name = None ->
  name ∉ foreign_tables d ->
  is_partition (events_archive name) (partitions d) = false ->
  removed_cfg name d = d.
Proof.
  intros Hs Hu Hf Hp.
  destruct (removed_cfg_rows name d) as [Hh Ht].
  destruct (removed_cfg_catalog name d) as (Hsv & Hum & Hft).
  apply coordinator_ext; try assumption.
  - rewrite Hsv. apply delete_id. exact Hs.
  - rewrite Hum. apply delete_id. exact Hu.
  - rewrite Hft. apply difference_disjoint_L, disjoint_singleton_r. exact Hf.
  - rewrite removed_cfg_partitions. apply filter_keeps_unnamed. exact Hp.
Qed.

Lemma removed_registered_cfg (a : AddStorageNode.args) (d : coordinator) :
  servers d !! AddStorageNode.NODE_NAME a = None ->
  user_mappings d !! AddStorageNode.NODE_NAME a = None ->
  AddStorageNode.NODE_NAME a ∉ foreign_tables d ->
  is_partition (events_archive (AddStorageNode.NODE_NAME a)) (partitions d) = false ->
  removed_cfg (AddStorageNode.NODE_NAME a) (registered_cfg a d) = d.
Proof.
  intros Hs Hu Hf Hp.
  destruct (removed_cfg_rows (AddStorageNode.NODE_NAME a) (registered_cfg a d))
    as [Hh Ht].
  destruct (registered_cfg_rows a d) as [Hh' Ht'].
  destruct (removed_cfg_catalog (AddStorageNode.NODE_NAME a) (registered_cfg a d))
    as (Hsv & Hum & Hft).
  destruct (registered_cfg_catalog a d) as (Hft' & Hsv' & Hum').
  rewrite Hs in Hsv'. rewrite Hu in Hum'.
  apply coordinator_ext; try congruence.
  - rewrite Hsv, Hsv'. apply delete_insert_id. exact Hs.
  - rewrite Hum, Hum'. apply delete_insert_id. exact Hu.
  - rewrite Hft, Hft', difference_union_distr_l_L, difference_diag_L.
    rewrite (left_id_L ∅ (∪)).
    apply difference_disjoint_L, disjoint_singleton_r. exact Hf.
  - rewrite removed_cfg_partitions.
    destruct (registered_cfg_partitions a d) as [->|(-> & _)].
    + apply filter_keeps_unnamed. exact Hp.
    + rewrite List.filter_app, (filter_keeps_unnamed _ _ Hp). simpl.
      rewrite String.eqb_refl. simpl. apply app_nil_r.
Qed.

Lemma remove_main_runs (name : string) (w : world) :
  node_name_ok name = true -> jq_installed w = true ->
  exists w', RemoveStorageNode.main name w = (inl tt, w').
Proof.
  intros Hok Hj. pose proof (node_name_ok_nonempty _ Hok) as Hn.
  apply String.eqb_neq in Hn.
  unfold RemoveStorageNode.main. rewrite Hn, Hok. simpl. unfold bind.
  assert (exists w1, RemoveStorageNode.whitelist_removal name w = (inl tt, w1))
    as (w1 & ->).
  { unfold RemoveStorageNode.whitelist_removal. unfold bind at 1. unfold get.
    destruct (ygg_nodes w) as [nodes|]; [|eexists; reflexivity].
    destruct (ygg_config w) as [keys|]; [|eexists; reflexivity].
    rewrite Hj. simpl.
    destruct (nodes !! name) as [k|]; [|eexists; reflexivity].
    destruct (String.eqb k EmptyString); [eexists; reflexivity|].
    run_script. eexists; reflexivity. }
  destruct (detach_effect name w1) as (w' & -> & _). eauto.
Qed.

Lemma same_state_refl (w : world) : same_state w w.
Proof. repeat split. Qed.

Lemma remove_unknown_node (name : string) (w : world) :
  unknown_node name w -> same_state w (snd (RemoveStorageNode.main name w)).
Proof.
  intros (Hs & Hu & Hf & Hp & Hn).
  destruct (remove_main_cases name w)
    as [[h ->]|(w1 & w' & Hw & -> & _ & Hc & Hst & Hyc & Hyn & Hj)]; simpl.
  - apply same_state_refl.
  - destruct (whitelist_removal_effect name w w1 Hw)
      as (_ & _ & _ & [(Hc1 & Hn1 & _)|(nodes & keys & k & Hnodes & _ & Hk & _)]).
    + unfold same_state. rewrite Hc, Hst, Hyc, Hyn, Hj, Hc1, Hn1.
      rewrite removed_cfg_unknown by assumption. repeat split.
    + rewrite (Hn nodes Hnodes) in Hk. discriminate.
Qed.



(** ** Refused calls *)



(** X12. On a name of one line the check of the three scripts is exact: it
    passes if and only if the name is not empty and made of letters, digits
    and underscores only. *)
Theorem node_name_check_exact_on_one_line (s : string) :
  no_line_feed s = true ->
  (node_name_ok s = true
   <-> s <> EmptyString /\ all_chars is_name_char s = true).
Proof.
  intros H. rewrite (node_name_ok_single_line s H).
  unfold matches_name_pattern, line_matches.
  destruct s as [|c s]; split.
  - discriminate.
  - intros [Hne _]. contradiction.
  - intros Hc. split; [discriminate|exact Hc].
  - intros [_ Hc]. exact Hc.
Qed.

Lemma node_name_check_exact_on_one_line_witness :
  node_name_ok "node_1" = true
  <-> "node_1" <> EmptyString /\ all_chars is_name_char "node_1" = true.
Proof.
  apply (node_name_check_exact_on_one_line "node_1"). reflexivity.
Defined.

(** ** The loops of the archival run end, or do not *)

Lemma fold_left_min_lower (lo : Z) (xs : list Z) (x : Z) :
  lo <= x -> (forall y, In y xs -> lo <= y) -> lo <= fold_left Z.min xs x.
Proof.
  revert x. induction xs as [|z xs IH]; simpl; intros x Hx Hall; [exact Hx|].
  apply IH.
  - pose proof (Hall z (or_introl eq_refl)). lia.
  - intros y Hy. apply Hall. right. exact Hy.
Qed.

Lemma fold_left_min_in (xs : list Z) (x : Z) :
  fold_left Z.min xs x = x \/ In (fold_left Z.min xs x) xs.
Proof.
  revert x. induction xs as [|z xs IH]; simpl; intros x; [left; reflexivity|].
  destruct (IH (Z.min x z)) as [H|H].
  - rewrite H. destruct (Z.min_spec x z) as [[_ ->]|[_ ->]]; auto.
  - right. right. exact H.
Qed.

Lemma min_created_at_lower (p : event -> bool) (t : list event) (lo m : Z) :
  (forall e, In e t -> lo <= event_created_at e) ->
  min_created_at p t = Some m -> lo <= m.
Proof.
  unfold min_created_at. intros Hts H.
  destruct (map event_created_at (List.filter p t)) as [|x xs] eqn:Hm;
    [discriminate|].
  injection H as <-.
  assert (forall y, In y (x :: xs) -> lo <= y) as Hall.
  { intros y Hy. rewrite <- Hm in Hy. apply in_map_iff in Hy as (e & <- & He).
    apply filter_In in He as [He _]. apply Hts. exact He. }
  apply fold_left_min_lower.
  - apply Hall. left. reflexivity.
  - intros y Hy. apply Hall. right. exact Hy.
Qed.

Lemma min_created_at_row (p : event -> bool) (t : list event) (m : Z) :
  min_created_at p t = Some m ->
  exists e, In e t /\ p e = true /\ event_created_at e = m.
Proof.
  unfold min_created_at. intros H.
  destruct (map event_created_at (List.filter p t)) as [|x xs] eqn:Hm;
    [discriminate|].
  injection H as <-.
  assert (In (fold_left Z.min xs x) (x :: xs)) as Hin.
  { destruct (fold_left_min_in xs x) as [->|Hi]; [left; reflexivity|right; exact Hi]. }
  rewrite <- Hm in Hin. apply in_map_iff in Hin as (e & He & Hf).
  apply filter_In in Hf as [Hin Hp]. exists e. auto.
Qed.

(** X13. With a positive batch size and a positive window, and timestamps
    that stay clear of the 64-bit limits, archive-events.sh ends: given at
    least as many turns as there are seconds between the oldest hot row and
    the cutoff plus hot rows, the run is never cut short, whatever the
    storage node answers. *)
Theorem archive_run_ends (net : nat -> bool) (a : ArchiveEvents.args)
    (w : world) (C lo : Z) (fuel : nat) :
  ArchiveEvents.CUTOFF a = Some C ->
  0 < ArchiveEvents.BATCH_WINDOW a <= 2 ^ 62 ->
  0 < ArchiveEvents.BATCH_SIZE a <= 2 ^ 62 ->
  C <= 2 ^ 62 ->
  - 2 ^ 62 <= lo ->
  (forall e, In e (hot (cfg w)) -> lo <= event_created_at e) ->
  Z.of_nat (length (hot (cfg w))) <= 2 ^ 62 ->
  (Z.to_nat (C - lo) + length (hot (cfg w)) <= fuel)%nat ->
  fst (ArchiveEvents.main fuel net a w) <> ArchiveEvents.StillRunning.
Proof.
  intros HC Hwin Hsize HCmax Hlo Hts Hlen Hfuel.
  unfold ArchiveEvents.main. rewrite HC.
  destruct (String.eqb _ _); [discriminate|].
  destruct (negb (node_name_ok _)); [discriminate|].
  destruct (negb (is_partition _ _)); [discriminate|].
  destruct (_ =? 0); [discriminate|].
  destruct (min_created_at _ _) as [MIN_TS|] eqn:Hmin; [|discriminate].
  destruct (ArchiveEvents.DRY_RUN a); [discriminate|].
  destruct (negb (String.eqb _ _)); [discriminate|].
  pose proof (min_created_at_lower _ _ lo MIN_TS Hts Hmin) as Hm.
  set (j0 := {| ArchiveEvents.BATCH_START := MIN_TS; ArchiveEvents.ARCHIVED := 0;
                ArchiveEvents.DELETED := 0; ArchiveEvents.copies := O |}).
  assert (fst (fst (ArchiveEvents.windows net a C fuel j0 w)) = true) as Hdone.
  { apply windows_completes; try assumption; simpl; lia. }
  destruct (ArchiveEvents.windows net a C fuel j0 w) as [[b j1] w1].
  simpl in Hdone. subst b. discriminate.
Qed.

Lemma archive_run_ends_witness :
  fst (ArchiveEvents.main 1003 Deployment.node_down Deployment.archive_node1
         Deployment.loaded) <> ArchiveEvents.StillRunning.
Proof.
  apply (archive_run_ends Deployment.node_down Deployment.archive_node1
           Deployment.loaded 2000 1000 1003).
  - reflexivity.
  - simpl. lia.
  - simpl. lia.
  - lia.
  - lia.
  - intros e He. vm_compute in He.
    destruct He as [<-|[<-|[<-|[]]]]; simpl; lia.
  - vm_compute. discriminate.
  - vm_compute. lia.
Defined.

Lemma copy_window_nothing (node : string) (lo hi offset : Z) (up : bool)
    (w w1 : world) :
  ArchiveEvents.copy_window node lo hi 0 offset up w = inr w1 ->
  cfg w1 = cfg w /\ storage w1 = storage w.
Proof.
  unfold ArchiveEvents.copy_window.
  destruct (negb _); [discriminate|].
  unfold select_batch. destruct (_ || _); [discriminate|].
  destruct (servers (cfg w) !! node) as [host|]; [|discriminate].
  destruct (storage w !! host) as [t|] eqn:Ht; [|discriminate].
  destruct up; [|discriminate].
  intros H. injection H as <-. simpl. split; [reflexivity|].
  apply insert_id. exact Ht.
Qed.

Lemma copy_sub_batches_zero_size (net : nat -> bool) (a : ArchiveEvents.args)
    (lo hi WINDOW_COUNT : Z) :
  ArchiveEvents.BATCH_SIZE a = 0 -> 0 < WINDOW_COUNT ->
  forall (fuel : nat) (j : ArchiveEvents.job) (w : world),
    let r := ArchiveEvents.copy_sub_batches net a fuel lo hi WINDOW_COUNT 0 j w in
    fst (fst r) = false /\ cfg (snd r) = cfg w /\ storage (snd r) = storage w.
Proof.
  intros Hsize Hcount.
  assert ((0 <? WINDOW_COUNT) = true) as Hlt by (apply Z.ltb_lt; exact Hcount).
  induction fuel as [|fuel IH]; intros j w; simpl; rewrite Hlt.
  - simpl. auto.
  - rewrite Hsize. change (wrap64 (0 + 0)) with 0.
    match goal with
    | |- context [ArchiveEvents.copy_sub_batches net a fuel lo hi WINDOW_COUNT 0 ?j1 ?w1] =>
        destruct (IH j1 w1) as (Hb & Hc & Hs)
    end.
    split; [exact Hb|]. rewrite Hc, Hs.
    destruct (ArchiveEvents.copy_window _ lo hi 0 0 _ w) as [e|w1] eqn:Hcw.
    + auto.
    + apply copy_window_nothing in Hcw as [Hc1 Hs1]. simpl. auto.
Qed.

Lemma windows_zero_size (C : Z) (net : nat -> bool) (a : ArchiveEvents.args) :
  ArchiveEvents.BATCH_SIZE a = 0 ->
  0 < ArchiveEvents.BATCH_WINDOW a <= 2 ^ 62 ->
  C <= 2 ^ 62 ->
  forall (fuel : nat) (j : ArchiveEvents.job) (w : world),
    - 2 ^ 62 <= ArchiveEvents.BATCH_START j ->
    (exists e, In e (hot (cfg w))
               /\ ArchiveEvents.BATCH_START j <= event_created_at e < C) ->
    let r := ArchiveEvents.windows net a C fuel j w in
    fst (fst r) = false /\ cfg (snd r) = cfg w /\ storage (snd r) = storage w.
Proof.
  intros Hsize Hwin HC.
  induction fuel as [|fuel IH]; intros j w Hbs (e & He & Hts); simpl.
  - assert ((ArchiveEvents.BATCH_START j <? C) = true) as -> by (apply Z.ltb_lt; lia).
    simpl. auto.
  - assert ((ArchiveEvents.BATCH_START j <? C) = true) as -> by (apply Z.ltb_lt; lia).
    rewrite (wrap64_small (ArchiveEvents.BATCH_START j + ArchiveEvents.BATCH_WINDOW a))
      by lia.
    set (BATCH_END := if _ >? C then C else _).
    assert (ArchiveEvents.BATCH_START j < BATCH_END <= C) as Hend.
    { unfold BATCH_END. destruct (_ >? C) eqn:E; [lia|].
      rewrite Z.gtb_ltb in E. apply Z.ltb_ge in E. lia. }
    set (WINDOW_COUNT := count_where _ (hot (cfg w))).
    destruct (WINDOW_COUNT =? 0) eqn:Hz.
    + apply Z.eqb_eq in Hz.
      pose proof (count_where_zero _ _ Hz e He) as Hout.
      match goal with
      | |- context [ArchiveEvents.windows net a C fuel ?j1 ?w1] =>
          destruct (IH j1 w1) as (Hb & Hc & Hs)
      end.
      * simpl. lia.
      * exists e. split; [exact He|]. simpl.
        unfold in_window in Hout. apply andb_false_iff in Hout as [Hout|Hout].
        -- apply Z.leb_gt in Hout. lia.
        -- apply Z.ltb_ge in Hout. lia.
      * split; [exact Hb|]. rewrite Hc, Hs. auto.
    + assert (0 < WINDOW_COUNT) as Hpos.
      { apply Z.eqb_neq in Hz. unfold WINDOW_COUNT, count_where in *. lia. }
      match goal with
      | |- context [ArchiveEvents.copy_sub_batches net a fuel ?lo ?hi WINDOW_COUNT 0 ?j1 ?w1] =>
          destruct (copy_sub_batches_zero_size net a lo hi WINDOW_COUNT Hsize Hpos
                      fuel j1 w1) as (Hb & Hc & Hs);
          destruct (ArchiveEvents.copy_sub_batches net a fuel lo hi WINDOW_COUNT 0 j1 w1)
            as [[b j2] w2]
      end.
      simpl in Hb, Hc, Hs. subst b. simpl. auto.
Qed.

Lemma windows_zero_window (C : Z) (net : nat -> bool) (a : ArchiveEvents.args) :
  ArchiveEvents.BATCH_WINDOW a = 0 ->
  C <= 2 ^ 62 ->
  forall (fuel : nat) (j : ArchiveEvents.job) (w : world),
    - 2 ^ 62 <= ArchiveEvents.BATCH_START j < C ->
    let r := ArchiveEvents.windows net a C fuel j w in
    fst (fst r) = false /\ cfg (snd r) = cfg w /\ storage (snd r) = storage w.
Proof.
  intros Hwin HC.
  induction fuel as [|fuel IH]; intros j w Hbs; simpl.
  - assert ((ArchiveEvents.BATCH_START j <? C) = true) as -> by (apply Z.ltb_lt; lia).
    simpl. auto.
  - assert ((ArchiveEvents.BATCH_START j <? C) = true) as -> by (apply Z.ltb_lt; lia).
    rewrite Hwin, Z.add_0_r, wrap64_small by lia.
    assert ((ArchiveEvents.BATCH_START j >? C) = false) as ->.
    { rewrite Z.gtb_ltb. apply Z.ltb_ge. lia. }
    rewrite count_where_none.
    2:{ intros e _. unfold in_window.
        destruct (ArchiveEvents.BATCH_START j <=? event_created_at e) eqn:E; simpl;
          [|reflexivity].
        apply Z.leb_le in E. apply Z.ltb_ge. exact E. }
    simpl.
    match goal with
    | |- context [ArchiveEvents.windows net a C fuel ?j1 ?w1] =>
        destruct (IH j1 w1) as (Hb & Hc & Hs)
    end.
    + simpl. exact Hbs.
    + split; [exact Hb|]. rewrite Hc, Hs. auto.
Qed.

(** X14. archive-events.sh does not check its batch options: with
    [--batch-size 0] (and a positive window) or with [--batch-window 0], a
    run that gets to its loop never leaves it.  However many turns it is
    given it has not reached its closing report, and it has moved nothing:
    the coordinator's tables and the storage nodes are as they were. *)
Theorem archive_zero_batch_never_ends (net : nat -> bool)
    (a : ArchiveEvents.args) (w : world) (C : Z) :
  ArchiveEvents.CUTOFF a = Some C ->
  node_name_ok (ArchiveEvents.NODE_NAME a) = true ->
  is_partition (events_archive (ArchiveEvents.NODE_NAME a)) (partitions (cfg w)) = true ->
  ArchiveEvents.DRY_RUN a = false ->
  to_lower (ArchiveEvents.CONFIRM a) = "y" ->
  count_where (below C) (hot (cfg w)) <> 0 ->
  C <= 2 ^ 62 ->
  (forall e, In e (hot (cfg w)) -> - 2 ^ 62 <= event_created_at e) ->
  (ArchiveEvents.BATCH_SIZE a = 0 /\ 0 < ArchiveEvents.BATCH_WINDOW a <= 2 ^ 62)
  \/ ArchiveEvents.BATCH_WINDOW a = 0 ->
  forall fuel,
    fst (ArchiveEvents.main fuel net a w) = ArchiveEvents.StillRunning
    /\ cfg (snd (ArchiveEvents.main fuel net a w)) = cfg w
    /\ storage (snd (ArchiveEvents.main fuel net a w)) = storage w.
Proof.
  intros HC Hok Hpart Hdry Hconf Htotal HCmax Hts Hopt fuel.
  pose proof (node_name_ok_nonempty _ Hok) as Hne. apply String.eqb_neq in Hne.
  unfold ArchiveEvents.main. rewrite HC, Hne, Hok, Hpart, Hdry, Hconf. simpl.
  apply Z.eqb_neq in Htotal. rewrite Htotal.
  destruct (min_created_at (below C) (hot (cfg w))) as [MIN_TS|] eqn:Hmin.
  2:{ exfalso. apply Z.eqb_neq in Htotal. apply Htotal.
      unfold min_created_at in Hmin. unfold count_where.
      destruct (List.filter (below C) (hot (cfg w))); [reflexivity|discriminate]. }
  destruct (min_created_at_row _ _ _ Hmin) as (e & He & Hb & Hm).
  unfold below in Hb. apply Z.ltb_lt in Hb.
  pose proof (Hts e He) as Hlo.
  set (j0 := {| ArchiveEvents.BATCH_START := MIN_TS; ArchiveEvents.ARCHIVED := 0;
                ArchiveEvents.DELETED := 0; ArchiveEvents.copies := O |}).
  assert (fst (fst (ArchiveEvents.windows net a C fuel j0 w)) = false
          /\ cfg (snd (ArchiveEvents.windows net a C fuel j0 w)) = cfg w
          /\ storage (snd (ArchiveEvents.windows net a C fuel j0 w)) = storage w)
    as (H1 & H2 & H3).
  { destruct Hopt as [[Hsize Hwin]|Hwin].
    - apply windows_zero_size; try assumption; simpl; [lia|].
      exists e. split; [exact He|lia].
    - apply windows_zero_window; try assumption. simpl. lia. }
  destruct (ArchiveEvents.windows net a C fuel j0 w) as [[b j1] w1].
  simpl in H1, H2, H3. subst b. simpl. auto.
Qed.

Lemma archive_zero_batch_never_ends_witness :
  fst (ArchiveEvents.main 40 Deployment.node_up Scenario.archive_no_batch
         Deployment.loaded) = ArchiveEvents.StillRunning
  /\ cfg (snd (ArchiveEvents.main 40 Deployment.node_up
                 Scenario.archive_no_batch Deployment.loaded))
     = cfg Deployment.loaded
  /\ storage (snd (ArchiveEvents.main 40 Deployment.node_up
                     Scenario.archive_no_batch Deployment.loaded))
     = storage Deployment.loaded.
Proof.
  refine (archive_zero_batch_never_ends Deployment.node_up
            Scenario.archive_no_batch Deployment.loaded 2000
            _ _ _ _ _ _ _ _ _ 40%nat).
  - reflexivity.
  - reflexivity.
  - reflexivity.
  - reflexivity.
  - reflexivity.
  - vm_compute. discriminate.
  - lia.
  - intros e He. vm_compute in He.
    destruct He as [<-|[<-|[<-|[]]]]; simpl; lia.
  - left. split; [reflexivity|simpl; lia].
Defined.

(** ** Tag rows after an archive run *)

Lemma filter_all {A} (l : list A) : List.filter (fun _ => true) l = l.
Proof. induction l as [|x l IH]; simpl; [reflexivity|]. rewrite IH. reflexivity. Qed.

Lemma filter_and {A} (p q : A -> bool) (l : list A) :
  List.filter p (List.filter q l) = List.filter (fun x => q x && p x) l.
Proof.
  induction l as [|x l IH]; simpl; [reflexivity|].
  destruct (q x); simpl; [destruct (p x)|]; rewrite IH; reflexivity.
Qed.

Lemma has_event_id_filter_or (eid : string) (p q : event -> bool) (l : list event) :
  has_event_id eid (List.filter (fun e => p e || q e) l)
  = has_event_id eid (List.filter p l) || has_event_id eid (List.filter q l).
Proof.
  induction l as [|x l IH]; simpl; [reflexivity|].
  destruct (p x), (q x); simpl; rewrite IH;
    destruct (String.eqb (event_id x) eid); simpl;
    rewrite ?orb_true_r; reflexivity.
Qed.

(** The trigger, fired for each removed row, filters the tag table. *)
Lemma tags_after_deletes_filter (removed : list event) (t : list tag_row) :
  fold_left (fun t o => process_event_tags TG_DELETE (Some o) None t) removed t
  = List.filter (fun r => negb (has_event_id (tag_event_id r) removed)) t.
Proof.
  revert t. induction removed as [|o removed IH]; intros t; simpl.
  - symmetry. apply filter_all.
  - rewrite IH. unfold process_event_tags. rewrite filter_and.
    apply List.filter_ext. intros r.
    rewrite (String.eqb_sym (event_id o)), negb_orb. reflexivity.
Qed.

Lemma swept_refl (C : Z) (d : coordinator) : swept C d d.
Proof.
  exists (fun _ => true). split; [|split].
  - symmetry. apply filter_all.
  - assert (List.filter (fun _ : event => negb true) (hot d) = []) as ->.
    { induction (hot d) as [|x l IH]; simpl; [reflexivity|exact IH]. }
    symmetry. apply filter_all.
  - discriminate.
Qed.

Lemma swept_delete_window (C lo hi : Z) (d0 d : coordinator) :
  hi <= C -> swept C d0 d -> swept C d0 (snd (delete_window lo hi d)).
Proof.
  intros Hhi (keep & Hhot & Htags & Hbelow).
  exists (fun e => keep e && negb (in_window lo hi e)). split; [|split].
  - simpl. rewrite Hhot. apply filter_and.
  - simpl. rewrite tags_after_deletes_filter, Htags, Hhot, !filter_and.
    apply List.filter_ext. intros r.
    rewrite <- negb_orb. f_equal.
    rewrite <- has_event_id_filter_or. f_equal.
    apply List.filter_ext. intros e.
    destruct (keep e), (in_window lo hi e); reflexivity.
  - intros e He. apply andb_false_iff in He as [He|He]; [apply Hbelow; exact He|].
    apply negb_false_iff in He. unfold in_window in He.
    apply andb_true_iff in He as [_ He]. apply Z.ltb_lt in He. lia.
Qed.

Lemma windows_swept (C : Z) (net : nat -> bool) (a : ArchiveEvents.args)
    (d0 : coordinator) (fuel : nat) :
  forall (j : ArchiveEvents.job) (w : world),
    swept C d0 (cfg w) ->
    swept C d0 (cfg (snd (ArchiveEvents.windows net a C fuel j w))).
Proof.
  induction fuel as [|fuel IH]; intros j w Hs; simpl.
  - destruct (_ <? C); exact Hs.
  - destruct (_ <? C); [|exact Hs].
    set (BATCH_END := if _ >? C then C else _).
    assert (BATCH_END <= C) as Hend by apply clamp_le.
    set (w0 := logged _ w).
    destruct (_ =? 0).
    + apply IH. exact Hs.
    + pose proof (copy_sub_batches_cfg net a fuel (ArchiveEvents.BATCH_START j)
                    BATCH_END
                    (count_where (in_window (ArchiveEvents.BATCH_START j) BATCH_END)
                       (hot (cfg w))) 0 j w0) as Hcopy.
      destruct (ArchiveEvents.copy_sub_batches _ _ _ _ _ _ _ _ _)
        as [[[] j1] w1]; simpl in Hcopy.
      * pose proof (swept_delete_window C (ArchiveEvents.BATCH_START j) BATCH_END
                      d0 (cfg w1) Hend) as Hdel.
        rewrite Hcopy in Hdel. specialize (Hdel Hs).
        change (cfg w0) with (cfg w) in Hcopy. rewrite Hcopy.
        apply IH. simpl. simpl in Hdel. exact Hdel.
      * simpl. rewrite Hcopy. exact Hs.
Qed.



(** ** The tag rows the trigger writes *)

Lemma append_cons (x : ascii) (a b : string) :
  (String x a ++ b)%string = String x (a ++ b).
Proof. reflexivity. Qed.

Lemma append_assoc_string (a b c : string) :
  ((a ++ b) ++ c = a ++ (b ++ c))%string.
Proof.
  induction a as [|x a IH]; [reflexivity|].
  rewrite !append_cons, IH. reflexivity.
Qed.

Lemma append_empty_r (a : string) : (a ++ EmptyString)%string = a.
Proof.
  induction a as [|x a IH]; [reflexivity|]. rewrite append_cons, IH. reflexivity.
Qed.

Lemma string_rev_app_spec (s acc : string) :
  string_rev_app s acc = (string_rev s ++ acc)%string.
Proof.
  unfold string_rev. revert acc.
  induction s as [|c s IH]; intros acc; [reflexivity|].
  cbn [string_rev_app].
  rewrite (IH (String c acc)), (IH (String c EmptyString)).
  rewrite append_assoc_string. reflexivity.
Qed.

Lemma string_rev_cons (c : ascii) (s : string) :
  string_rev (String c s) = (string_rev s ++ String c EmptyString)%string.
Proof. unfold string_rev at 1. cbn [string_rev_app]. apply string_rev_app_spec. Qed.

Lemma string_rev_append (s t : string) :
  string_rev (s ++ t) = (string_rev t ++ string_rev s)%string.
Proof.
  induction s as [|c s IH].
  - change (EmptyString ++ t)%string with t.
    change (string_rev EmptyString) with EmptyString.
    symmetry. apply append_empty_r.
  - rewrite append_cons, !string_rev_cons, IH, append_assoc_string. reflexivity.
Qed.

Lemma string_rev_involutive (s : string) : string_rev (string_rev s) = s.
Proof.
  induction s as [|c s IH]; [reflexivity|].
  rewrite string_rev_cons, string_rev_append, IH. reflexivity.
Qed.

Lemma all_chars_append (p : ascii -> bool) (s t : string) :
  all_chars p (s ++ t) = all_chars p s && all_chars p t.
Proof.
  induction s as [|c s IH]; [reflexivity|].
  rewrite append_cons. cbn [all_chars]. rewrite IH, andb_assoc. reflexivity.
Qed.

Lemma all_chars_rev (p : ascii -> bool) (s : string) :
  all_chars p (string_rev s) = all_chars p s.
Proof.
  induction s as [|c s IH]; [reflexivity|].
  rewrite string_rev_cons, all_chars_append, IH. cbn [all_chars].
  rewrite andb_true_r. apply andb_comm.
Qed.

Lemma plain_char_not_quote (c : ascii) :
  plain_char c = true -> Ascii.eqb c DQ = false /\ Ascii.eqb c BACKSLASH = false.
Proof.
  unfold plain_char. intros H. apply andb_true_iff in H as [_ H].
  apply negb_true_iff, orb_false_iff in H. exact H.
Qed.

Lemma json_escape_plain (s : string) : plain s = true -> json_escape s = s.
Proof.
  unfold plain. induction s as [|c s IH]; simpl; [reflexivity|].
  intros H. apply andb_true_iff in H as [Hc Hs].
  destruct (plain_char_not_quote c Hc) as [-> ->]. simpl.
  rewrite (IH Hs). reflexivity.
Qed.

Lemma ltrim_plain (s : string) : plain s = true -> ltrim DQ s = s.
Proof.
  destruct s as [|c s]; [reflexivity|]. unfold plain. simpl.
  intros H. apply andb_true_iff in H as [Hc _].
  destruct (plain_char_not_quote c Hc) as [-> _]. reflexivity.
Qed.

(** Stripping the quotes of the text form of a plain jsonb string gives the
    string back. *)
Lemma trim_jsonb_text_plain (s : string) :
  plain s = true -> trim DQ (jsonb_text s) = s.
Proof.
  intros H. unfold trim, jsonb_text. rewrite (json_escape_plain s H).
  cbn [ltrim]. rewrite Ascii.eqb_refl.
  destruct s as [|c s].
  - reflexivity.
  - assert (ltrim DQ (String c s ++ String DQ EmptyString)
            = (String c s ++ String DQ EmptyString)%string) as ->.
    { unfold plain in H. cbn [all_chars] in H. apply andb_true_iff in H as [Hc _].
      rewrite append_cons. cbn [ltrim].
      destruct (plain_char_not_quote c Hc) as [-> _]. reflexivity. }
    rewrite string_rev_append.
    change (string_rev (String DQ EmptyString)) with (String DQ EmptyString).
    rewrite append_cons. cbn [ltrim]. rewrite Ascii.eqb_refl.
    change (EmptyString ++ string_rev (String c s))%string
      with (string_rev (String c s)).
    rewrite ltrim_plain.
    + apply string_rev_involutive.
    + unfold plain. rewrite all_chars_rev. exact H.
Qed.

Lemma tag_rows_of_plain (eid : string) (n : ascii) (v : string)
    (rest : list string) :
  plain_char n = true -> plain v = true -> v <> EmptyString ->
  tag_rows_of eid (String n EmptyString :: v :: rest)
  = [ {| tag_event_id := eid; tag_name := String n EmptyString; tag_value := v |} ].
Proof.
  intros Hn Hv Hne. unfold tag_rows_of, tag_field. cbn [nth_error].
  rewrite (trim_jsonb_text_plain v Hv).
  rewrite (trim_jsonb_text_plain (String n EmptyString))
    by (unfold plain; simpl; rewrite Hn; reflexivity).
  apply String.eqb_neq in Hne. rewrite Hne. reflexivity.
Qed.

(** X16. An event that enters the hot partition can be found by its tags:
    for each of its tags whose name is one plain character and whose value
    is a non-empty plain string, the trigger leaves in [event_tags] the row
    with the event's identifier, that name and that value, as they are; and
    the tag rows that were there before are all still there. *)
Theorem hot_event_indexed_by_its_tags (r : event) (d : coordinator)
    (n : ascii) (v : string) (rest : list string) :
  existsb (hot_conflict r) (hot d) = false ->
  In (String n EmptyString :: v :: rest) (event_tags r) ->
  plain_char n = true -> plain v = true -> v <> EmptyString ->
  In r (hot (insert_events_hot r d))
  /\ In {| tag_event_id := event_id r; tag_name := String n EmptyString;
           tag_value := v |} (tags (insert_events_hot r d))
  /\ (forall x, In x (tags d) -> In x (tags (insert_events_hot r d))).
Proof.
  intros Hfree Htag Hn Hv Hne. unfold insert_events_hot. rewrite Hfree.
  cbn [tags hot with_tags with_hot process_event_tags].
  split; [|split].
  - apply in_or_app. right. left. reflexivity.
  - apply in_or_app. right. apply in_concat.
    exists (tag_rows_of (event_id r) (String n EmptyString :: v :: rest)).
    split; [apply in_map; exact Htag|].
    rewrite (tag_rows_of_plain _ n v rest Hn Hv Hne). left. reflexivity.
  - intros x Hx. apply in_or_app. left. exact Hx.
Qed.

Lemma hot_event_indexed_by_its_tags_witness :
  In Deployment.e1 (hot (insert_events_hot Deployment.e1 (cfg Deployment.registered)))
  /\ In {| tag_event_id := "e1"; tag_name := "p"; tag_value := "alice" |}
        (tags (insert_events_hot Deployment.e1 (cfg Deployment.registered)))
  /\ (forall x, In x (tags (cfg Deployment.registered)) ->
        In x (tags (insert_events_hot Deployment.e1 (cfg Deployment.registered)))).
Proof.
  apply (hot_event_indexed_by_its_tags Deployment.e1 (cfg Deployment.registered)
           "p" "alice" []).
  - reflexivity.
  - left. reflexivity.
  - reflexivity.
  - reflexivity.
  - discriminate.
Defined.

(** ** The migration *)

Lemma copy_events_old_hot (rows : list event) :
  forall w : world,
    partitions (cfg w) = [Migration.events_hot_everything] ->
    Migration.copy_events_old rows w
    = inr (with_cfg (fold_left (fun d r => insert_events_hot r d) rows (cfg w)) w).
Proof.
  induction rows as [|r rows IH]; intros w Hp.
  - destruct w as [d st yc yn jq lg]. reflexivity.
  - cbn [Migration.copy_events_old fold_left]. unfold insert_events.
    rewrite Hp. cbn [find]. 
    change (key_in_range (event_created_at r) Migration.events_hot_everything)
      with true.
    cbn [relname Migration.events_hot_everything].
    rewrite IH.
    + reflexivity.
    + cbn [cfg with_cfg]. rewrite insert_events_hot_partitions. exact Hp.
Qed.

Lemma unique_rows_snoc (l : list event) (r : event) :
  unique_rows (l ++ [r]) = unique_rows l && negb (existsb (hot_conflict r) l).
Proof.
  induction l as [|x l IH]; [reflexivity|].
  cbn [app unique_rows existsb]. rewrite forallb_app, IH. cbn [forallb].
  destruct (forallb _ l), (unique_rows l), (hot_conflict r x),
    (existsb (hot_conflict r) l); reflexivity.
Qed.

Lemma forallb_no_conflict_snoc (l rest : list event) (r : event) :
  forallb (fun x => negb (existsb (hot_conflict x) (l ++ [r]))) rest
  = forallb (fun x => negb (existsb (hot_conflict x) l)) rest
    && forallb (fun x => negb (hot_conflict x r)) rest.
Proof.
  induction rest as [|x rest IH]; [reflexivity|].
  cbn [forallb]. rewrite IH, existsb_app. cbn [existsb].
  destruct (existsb (hot_conflict x) l), (hot_conflict x r),
    (forallb _ rest), (forallb _ rest); reflexivity.
Qed.

(** What the row-by-row insert does to the hot partition and the tag
    table. *)
Lemma insert_rows_kept (rows : list event) :
  forall d : coordinator,
    exists kept,
      hot (fold_left (fun d r => insert_events_hot r d) rows d) = hot d ++ kept
      /\ tags (fold_left (fun d r => insert_events_hot r d) rows d)
         = tags d ++ flat_map tag_rows_of_event kept
      /\ incl kept rows
      /\ (length kept <= length rows)%nat
      /\ (kept = rows
          <-> forallb (fun x => negb (existsb (hot_conflict x) (hot d))) rows
              && unique_rows rows = true).
Proof.
  induction rows as [|r rows IH]; intros d.
  - exists []. cbn [fold_left flat_map]. rewrite !app_nil_r.
    repeat split; auto. apply incl_refl.
  - cbn [fold_left]. unfold insert_events_hot at 2 4.
    destruct (existsb (hot_conflict r) (hot d)) eqn:Hc.
    + destruct (IH d) as (kept & Hh & Ht & Hi & Hl & _).
      exists kept. split; [exact Hh|]. split; [exact Ht|].
      split; [apply incl_tl; exact Hi|]. split; [simpl; lia|].
      cbn [forallb]. rewrite Hc. cbn [negb andb]. split; [|discriminate].
      intros ->. simpl in Hl. lia.
    + set (d1 := with_tags _ _).
      destruct (IH d1) as (kept & Hh & Ht & Hi & Hl & Hiff).
      exists (r :: kept). change (hot d1) with (hot d ++ [r]) in Hh, Hiff.
      change (tags d1) with (tags d ++ tag_rows_of_event r) in Ht.
      split; [rewrite Hh, <- app_assoc; reflexivity|].
      split; [rewrite Ht, <- app_assoc; reflexivity|].
      split; [|split; [simpl; lia|]].
      * intros x [<-|Hx]; [left; reflexivity|right; apply Hi; exact Hx].
      * rewrite forallb_no_conflict_snoc in Hiff.
        cbn [forallb unique_rows]. rewrite Hc. cbn [negb andb].
        split.
        -- intros H. injection H as H. apply Hiff in H.
           rewrite <- H. 
           destruct (forallb (fun x => negb (existsb (hot_conflict x) (hot d))) rows),
             (forallb (fun x => negb (hot_conflict x r)) rows), (unique_rows rows);
             reflexivity.
        -- intros H. f_equal. apply Hiff. rewrite <- H.
           destruct (forallb (fun x => negb (existsb (hot_conflict x) (hot d))) rows),
             (forallb (fun x => negb (hot_conflict x r)) rows), (unique_rows rows);
             reflexivity.
Qed.

Lemma insert_rows_unique (rows : list event) :
  forall d : coordinator,
    unique_rows (hot d) = true ->
    unique_rows (hot (fold_left (fun d r => insert_events_hot r d) rows d)) = true.
Proof.
  induction rows as [|r rows IH]; intros d Hu; [exact Hu|].
  cbn [fold_left]. apply IH. unfold insert_events_hot.
  destruct (existsb (hot_conflict r) (hot d)) eqn:Hc; [exact Hu|].
  cbn [hot with_tags with_hot]. rewrite unique_rows_snoc, Hu, Hc. reflexivity.
Qed.

Lemma insert_rows_catalog (rows : list event) :
  forall d : coordinator,
    partitions (fold_left (fun d r => insert_events_hot r d) rows d) = partitions d.
Proof.
  induction rows as [|r rows IH]; intros d; [reflexivity|].
  cbn [fold_left]. rewrite IH. apply insert_events_hot_partitions.
Qed.


(** ** Running a topology script again *)

Lemma removed_cfg_twice (name : string) (d : coordinator) :
  removed_cfg name (removed_cfg name d) = removed_cfg name d.
Proof.
  destruct (removed_cfg_catalog name d) as (Hs & Hu & Hf).
  apply removed_cfg_unknown.
  - rewrite Hs. apply lookup_delete_eq.
  - rewrite Hu. apply lookup_delete_eq.
  - rewrite Hf. intros H. apply elem_of_difference in H as [_ H].
    apply H. apply elem_of_singleton. reflexivity.
  - rewrite removed_cfg_partitions. apply is_partition_removed.
Qed.

Lemma is_partition_snoc (n : string) (from to : bound) (ps : list partition) :
  is_partition (events_archive n)
    (ps ++ [ {| relname := events_archive n; part_from := from; part_to := to |} ])
  = true.
Proof.
  unfold is_partition. rewrite existsb_app. cbn [existsb relname relation_eqb].
  rewrite String.eqb_refl. apply orb_true_iff. right. reflexivity.
Qed.

Lemma registered_cfg_twice (a : AddStorageNode.args) (d : coordinator) :
  registered_cfg a (registered_cfg a d) = registered_cfg a d.
Proof.
  set (d' := registered_cfg a d).
  destruct (registered_cfg_rows a d') as [Hh Ht].
  destruct (registered_cfg_catalog a d') as (Hf & Hs & Hu).
  destruct (registered_cfg_catalog a d) as (Hf0 & Hs0 & Hu0).
  fold d' in Hf0, Hs0, Hu0.
  apply coordinator_ext.
  - exact Hh.
  - exact Ht.
  - rewrite Hs. destruct (servers d' !! AddStorageNode.NODE_NAME a) eqn:E;
      [reflexivity|exfalso].
    rewrite Hs0 in E.
    destruct (servers d !! AddStorageNode.NODE_NAME a) eqn:E0; [congruence|].
    rewrite lookup_insert_eq in E. discriminate.
  - rewrite Hu. destruct (user_mappings d' !! AddStorageNode.NODE_NAME a) eqn:E;
      [reflexivity|exfalso].
    rewrite Hu0 in E.
    destruct (user_mappings d !! AddStorageNode.NODE_NAME a) eqn:E0; [congruence|].
    rewrite lookup_insert_eq in E. discriminate.
  - rewrite Hf, Hf0. rewrite (assoc_L (∪)), (idemp_L (∪)). reflexivity.
  - destruct (registered_cfg_partitions a d') as [H|(H & Hnp & Hlt & Hov)];
      [exact H|exfalso].
    destruct (registered_cfg_partitions a d) as [H1|(H1 & _)]; fold d' in H1.
    + rewrite H1 in Hnp, Hov.
      pose proof (registered_cfg_attached a d Hnp Hlt Hov) as H2. fold d' in H2.
      rewrite H1 in H2. apply (f_equal (@length partition)) in H2.
      rewrite List.length_app in H2. simpl in H2. lia.
    + rewrite H1 in Hnp. unfold node_partition in Hnp.
      rewrite is_partition_snoc in Hnp. discriminate.
Qed.


(** ** Re-attaching a node *)



(** ** The rows on the storage node *)

Lemma nodup_event_ids_inj (t : list event) (x y : event) :
  NoDup (event_ids t) -> In x t -> In y t -> event_id x = event_id y -> x = y.
Proof.
  unfold event_ids. induction t as [|z t IH]; simpl; intros Hnd Hx Hy Heq;
    [contradiction|].
  apply NoDup_cons in Hnd as [Hz Hnd]. rewrite list_elem_of_In in Hz.
  destruct Hx as [->|Hx], Hy as [->|Hy].
  - reflexivity.
  - exfalso. apply Hz. rewrite Heq. apply in_map. exact Hy.
  - exfalso. apply Hz. rewrite <- Heq. apply in_map. exact Hx.
  - apply IH; assumption.
Qed.


